(** * The movies store: search, paging and "load more" over a remote paged API

    A shallow embedding of [MoviesStore] (the store behind the main page of
    the movies application) and of the [selectPage] binding of the pagination
    view.  The observable fields and the computed getters are plain functions
    of the store; the three RxJS subscriptions set up by the constructor are
    given as the state each operator keeps ([debounceTime], [combineLatest],
    [switchMap], [delay]) and one transition per notification that can reach
    them. *)

From Stdlib Require Import ZArith NArith List String Ascii Bool Lia Sorted Arith.
Import ListNotations.
Open Scope Z_scope.

(* ================================================================= *)
(** ** JavaScript values *)

(** A JavaScript string is a sequence of UTF-16 code units. *)
Definition jsString := list N.

(** A literal of the source (ASCII only), as code units. *)
Definition str (s : string) : jsString :=
  map N_of_ascii (list_ascii_of_string s).

(** The code units [String.prototype.trim] strips: WhiteSpace and
    LineTerminator of ECMAScript. *)
Definition isWhiteSpace (c : N) : bool :=
  existsb (N.eqb c)
    [9; 10; 11; 12; 13; 32; 160; 5760;
     8192; 8193; 8194; 8195; 8196; 8197; 8198; 8199; 8200; 8201; 8202;
     8232; 8233; 8239; 8287; 12288; 65279]%N.

Fixpoint trimStart (s : jsString) : jsString :=
  match s with
  | c :: s' => if isWhiteSpace c then trimStart s' else s
  | [] => []
  end.

Definition trimEnd (s : jsString) : jsString := rev (trimStart (rev s)).

Definition trim (s : jsString) : jsString := trimEnd (trimStart s).

(** [Number.MAX_SAFE_INTEGER], 2^53 - 1. *)
Definition MAX_SAFE_INTEGER : Z := 2 ^ 53 - 1.

(** A page number that can be moved by two in either direction and stay
    an integer that a double holds. *)
Definition safePage (z : Z) : bool := Z.abs z <=? MAX_SAFE_INTEGER - 1.

(** A number that arithmetic on [undefined] may have turned into [NaN].
    The numbers of the store are page numbers, kept here as the integers
    they are.  JavaScript keeps them in doubles: an integer of magnitude
    up to 2^53 is held as it is, and [+] and [-] on such integers are exact
    while the result stays in that range; beyond it a double rounds.  What
    is proved of a sum or a difference below is stated for pages in the
    safe range ([safePage], [safePages]). *)
Inductive number :=
| Num (z : Z)
| NaN.

(** [a - k] and [a + k] where [a] may be [undefined]; exact as long as the
    result has magnitude at most 2^53. *)
Definition minus (a : option Z) (k : Z) : number :=
  match a with Some z => Num (z - k) | None => NaN end.

Definition plus (a : option Z) (k : Z) : number :=
  match a with Some z => Num (z + k) | None => NaN end.

(** SameValueZero, the equality of [Set]: [NaN] equals [NaN]. *)
Definition sameValueZero (a b : number) : bool :=
  match a, b with
  | Num x, Num y => x =? y
  | NaN, NaN => true
  | _, _ => false
  end.

(** [new Set(iterable)]: the elements in insertion order, a value already
    present is not added again.  [Array.from] of the set is that list. *)
Definition setAdd (s : list number) (x : number) : list number :=
  if existsb (sameValueZero x) s then s else s ++ [x].

Definition newSet (l : list number) : list number := fold_left setAdd l [].

(** [a[i]]: [undefined] outside of the array, also for a negative index. *)
Definition index {A} (a : list A) (i : Z) : option A :=
  if i <? 0 then None else nth_error a (Z.to_nat i).

(* ================================================================= *)
(** ** Data *)

(** Modelled from the spec: the declaration of [Movie] ([~data/types]) is not
    part of the sources; the spec calls it an opaque record (title, overview,
    poster path), which are the fields the movie page reads. *)
Record Movie := {
  title : string;
  overview : string;
  posterPath : option string;
}.

(** Modelled from the spec: [MoviesPage] ([~data/types]) is declared outside
    of the sources; the store reads [page], [totalPages] and [movies], the
    three fields the spec gives a ResultPage. *)
Module MoviesPage.
Record t := mk {
  page : Z;
  totalPages : Z;
  movies : list Movie;
}.
End MoviesPage.

Inductive MovieSearchErrorType :=
| BadInput
| ServerError.

Record MovieSearchError := {
  type : MovieSearchErrorType;
  message : string;
}.

Definition MIN_CHARACTERS_FOR_SEARCH : nat := 3.

Definition SERVER_ERROR : MovieSearchError := {|
  type := ServerError;
  message := "Oops, something went wrong. Please try again later.";
|}.

(** The literal built in the error pipeline; the template
    [`Please enter at least ${MIN_CHARACTERS_FOR_SEARCH} characters`]
    with the constant printed in decimal. *)
Definition digit (n : nat) : string :=
  String (ascii_of_nat (48 + n)) EmptyString.

Definition BAD_INPUT : MovieSearchError := {|
  type := BadInput;
  message := ("Please enter at least " ++ digit MIN_CHARACTERS_FOR_SEARCH
              ++ " characters")%string;
|}.

Definition isQueryValid (query : jsString) : bool :=
  (MIN_CHARACTERS_FOR_SEARCH <=? List.length (trim query))%nat.

(* ================================================================= *)
(** ** What the environment sees *)

(** The subscription that called [_moviesApi.search]. *)
Inductive Origin :=
| Fresh   (* the search and page-selection subscription *)
| More.   (* the load-more subscription *)

(** One call [_moviesApi.search({query, page})]. *)
Module Request.
Record t := mk {
  origin : Origin;
  query : jsString;
  page : Z;
}.
End Request.

(** One call of [logger.error(text, cause)]. *)
Record LogEntry := {
  text : string;
  cause : string;
}.

(** How an awaited remote call ends. *)
Inductive Outcome :=
| Success (moviesData : MoviesPage.t)
| Failure (error : string).

(* ================================================================= *)
(** ** The store *)

(** [combineLatest] and [switchMap] of the first subscription.  The second
    input of [combineLatest] starts with 1 ([startWith(1)]), so only the
    first one can be without a value.  [inner] is the call [switchMap] is
    subscribed to, by its position in the list of calls. *)
Record FreshSub := {
  freshLive : bool;              (* false once an error has ended it *)
  latestQuery : option jsString; (* last value of the filtered input *)
  latestPage : Z;                (* last value of the merged page input *)
  freshInner : option nat;
}.

(** [combineLatest] and [switchMap] of the second subscription. *)
Record MoreSub := {
  moreLive : bool;
  latestSearch : option jsString; (* last value of [_searchString$] *)
  moreSeen : bool;                (* [_loadMore$] has emitted *)
  moreInner : option nat;
}.

Record MoviesStore := {
  _error : option MovieSearchError;
  _noResultsFound : bool;
  _moviesResponses : list MoviesPage.t;
  (* debounceTime(500): the last value and the milliseconds left *)
  debounced : option (jsString * nat);
  fresh : FreshSub;
  more : MoreSub;
  (* the delayed BadInput of the error pipeline and the milliseconds left *)
  pendingError : option (MovieSearchError * nat);
  calls : list Request.t;
  logged : list LogEntry;
}.

(** The store the constructor leaves. *)
Definition initial : MoviesStore := {|
  _error := None;
  _noResultsFound := false;
  _moviesResponses := [];
  debounced := None;
  fresh := {| freshLive := true; latestQuery := None; latestPage := 1;
              freshInner := None |};
  more := {| moreLive := true; latestSearch := None; moreSeen := false;
             moreInner := None |};
  pendingError := None;
  calls := [];
  logged := [];
|}.

(* ----------------------------------------------------------------- *)
(** *** Getters *)

Definition totalPages (st : MoviesStore) : Z :=
  match index (_moviesResponses st) 0 with
  | Some response => MoviesPage.totalPages response
  | None => 0
  end.

Definition currentPages (st : MoviesStore) : list Z :=
  map MoviesPage.page (_moviesResponses st).

Definition firstOfCurrentPages (st : MoviesStore) : option Z :=
  index (currentPages st) 0.

Definition lastOfCurrentPages (st : MoviesStore) : option Z :=
  index (currentPages st) (Z.of_nat (List.length (currentPages st)) - 1).

Definition noResultsFound (st : MoviesStore) : bool := _noResultsFound st.

Definition movies (st : MoviesStore) : list Movie :=
  flat_map MoviesPage.movies (_moviesResponses st).

Definition error (st : MoviesStore) : option MovieSearchError := _error st.

(** Every page of the window, and the number of pages it reports, is in
    the safe range. *)
Definition safePages (st : MoviesStore) : bool :=
  forallb (fun response =>
             safePage (MoviesPage.page response)
             && safePage (MoviesPage.totalPages response))
          (_moviesResponses st).

(** The array literal handed to [new Set] in [pagesToPickFrom]; its sums
    and differences are exact when [safePages] holds. *)
Definition candidates (st : MoviesStore) : list number :=
  let currentLowestPage := index (currentPages st) 0 in
  let currentHighestPage :=
    index (currentPages st) (Z.of_nat (List.length (currentPages st)) - 1) in
  [Num 1; Num 2; minus currentLowestPage 2; minus currentLowestPage 1]
  ++ map Num (currentPages st)
  ++ [plus currentHighestPage 1; plus currentHighestPage 2;
      Num (totalPages st - 1); Num (totalPages st)].

(** [.filter(page => page > 0 && page <= this.totalPages)]; every
    comparison with [NaN] is false. *)
Fixpoint filterPages (total : Z) (l : list number) : list Z :=
  match l with
  | [] => []
  | Num page :: l' =>
      if (0 <? page) && (page <=? total)
      then page :: filterPages total l'
      else filterPages total l'
  | NaN :: l' => filterPages total l'
  end.

Definition pagesToPickFrom (st : MoviesStore) : list Z :=
  let pages := newSet (candidates st) in
  filterPages (totalPages st) pages.

(* ----------------------------------------------------------------- *)
(** *** Writing one field *)

Definition set_error (e : option MovieSearchError) (st : MoviesStore) :=
  {| _error := e; _noResultsFound := _noResultsFound st;
     _moviesResponses := _moviesResponses st; debounced := debounced st;
     fresh := fresh st; more := more st; pendingError := pendingError st;
     calls := calls st; logged := logged st |}.

Definition set_noResultsFound (b : bool) (st : MoviesStore) :=
  {| _error := _error st; _noResultsFound := b;
     _moviesResponses := _moviesResponses st; debounced := debounced st;
     fresh := fresh st; more := more st; pendingError := pendingError st;
     calls := calls st; logged := logged st |}.

Definition set_moviesResponses (w : list MoviesPage.t) (st : MoviesStore) :=
  {| _error := _error st; _noResultsFound := _noResultsFound st;
     _moviesResponses := w; debounced := debounced st;
     fresh := fresh st; more := more st; pendingError := pendingError st;
     calls := calls st; logged := logged st |}.

Definition set_debounced (d : option (jsString * nat)) (st : MoviesStore) :=
  {| _error := _error st; _noResultsFound := _noResultsFound st;
     _moviesResponses := _moviesResponses st; debounced := d;
     fresh := fresh st; more := more st; pendingError := pendingError st;
     calls := calls st; logged := logged st |}.

Definition set_fresh (f : FreshSub) (st : MoviesStore) :=
  {| _error := _error st; _noResultsFound := _noResultsFound st;
     _moviesResponses := _moviesResponses st; debounced := debounced st;
     fresh := f; more := more st; pendingError := pendingError st;
     calls := calls st; logged := logged st |}.

Definition set_more (m : MoreSub) (st : MoviesStore) :=
  {| _error := _error st; _noResultsFound := _noResultsFound st;
     _moviesResponses := _moviesResponses st; debounced := debounced st;
     fresh := fresh st; more := m; pendingError := pendingError st;
     calls := calls st; logged := logged st |}.

Definition set_pendingError (p : option (MovieSearchError * nat))
    (st : MoviesStore) :=
  {| _error := _error st; _noResultsFound := _noResultsFound st;
     _moviesResponses := _moviesResponses st; debounced := debounced st;
     fresh := fresh st; more := more st; pendingError := p;
     calls := calls st; logged := logged st |}.

(** [this._moviesApi.search({query, page})] called by subscription [o]. *)
Definition search (o : Origin) (query : jsString) (page : Z)
    (st : MoviesStore) :=
  {| _error := _error st; _noResultsFound := _noResultsFound st;
     _moviesResponses := _moviesResponses st; debounced := debounced st;
     fresh := fresh st; more := more st; pendingError := pendingError st;
     calls := calls st ++ [Request.mk o query page]; logged := logged st |}.

(** [logger.error(text, cause)]. *)
Definition logger_error (t c : string) (st : MoviesStore) :=
  {| _error := _error st; _noResultsFound := _noResultsFound st;
     _moviesResponses := _moviesResponses st; debounced := debounced st;
     fresh := fresh st; more := more st; pendingError := pendingError st;
     calls := calls st; logged := logged st ++ [{| text := t; cause := c |}] |}.

(* ----------------------------------------------------------------- *)
(** *** The first subscription: a search, or a selected page *)

(** [switchMap(([searchString, page]) => this._moviesApi.search(...))]:
    the call is made and becomes the one awaited; the one awaited before,
    if any, is dropped. *)
Definition freshSwitch (searchString : jsString) (page : Z)
    (st : MoviesStore) : MoviesStore :=
  let id := List.length (calls st) in
  let st := search Fresh searchString page st in
  set_fresh {| freshLive := freshLive (fresh st);
               latestQuery := latestQuery (fresh st);
               latestPage := latestPage (fresh st);
               freshInner := Some id |} st.

(** [searchInput$.pipe(filter(isQueryValid))] hands [query] to
    [combineLatest]. *)
Definition freshQuery (query : jsString) (st : MoviesStore) : MoviesStore :=
  if freshLive (fresh st) then
    let st := set_fresh {| freshLive := true;
                           latestQuery := Some query;
                           latestPage := latestPage (fresh st);
                           freshInner := freshInner (fresh st) |} st in
    freshSwitch query (latestPage (fresh st)) st
  else st.

(** [merge(this._loadPage$.pipe(startWith(1)), searchInput$.pipe(map(() => 1)))]
    hands [page] to [combineLatest]. *)
Definition freshPage (page : Z) (st : MoviesStore) : MoviesStore :=
  if freshLive (fresh st) then
    let st := set_fresh {| freshLive := true;
                           latestQuery := latestQuery (fresh st);
                           latestPage := page;
                           freshInner := freshInner (fresh st) |} st in
    match latestQuery (fresh st) with
    | Some searchString => freshSwitch searchString page st
    | None => st
    end
  else st.

(* ----------------------------------------------------------------- *)
(** *** The second subscription: load more *)

(** [(this.lastOfCurrentPages ?? 1) + 1]; exact when the last page is in
    the safe range. *)
Definition nextPage (st : MoviesStore) : Z :=
  match lastOfCurrentPages st with
  | Some last => last + 1
  | None => 1 + 1
  end.

Definition moreSwitch (searchString : jsString) (st : MoviesStore)
    : MoviesStore :=
  let id := List.length (calls st) in
  let st := search More searchString (nextPage st) st in
  set_more {| moreLive := moreLive (more st);
              latestSearch := latestSearch (more st);
              moreSeen := moreSeen (more st);
              moreInner := Some id |} st.

(** [this._searchString$] hands [val] to [combineLatest]. *)
Definition moreSearch (val : jsString) (st : MoviesStore) : MoviesStore :=
  if moreLive (more st) then
    let st := set_more {| moreLive := true;
                          latestSearch := Some val;
                          moreSeen := moreSeen (more st);
                          moreInner := moreInner (more st) |} st in
    if moreSeen (more st) then moreSwitch val st else st
  else st.

(** [this._loadMore$] hands its (void) value to [combineLatest]. *)
Definition moreClick (st : MoviesStore) : MoviesStore :=
  if moreLive (more st) then
    let st := set_more {| moreLive := true;
                          latestSearch := latestSearch (more st);
                          moreSeen := true;
                          moreInner := moreInner (more st) |} st in
    match latestSearch (more st) with
    | Some searchString => moreSwitch searchString st
    | None => st
    end
  else st.

(* ----------------------------------------------------------------- *)
(** *** The third subscription: the error *)

(** [switchMap] over [searchInput$]: [of(undefined)] is delivered at once,
    the BadInput error after [delay(500)]; either way the inner observable
    of the previous input is dropped. *)
Definition errorInput (query : jsString) (st : MoviesStore) : MoviesStore :=
  if (List.length query =? 0)%nat || isQueryValid query
  then set_error None (set_pendingError None st)
  else set_pendingError (Some (BAD_INPUT, 500%nat)) st.

(** [serverError$.next(SERVER_ERROR)], merged into the same subscriber. *)
Definition serverError (e : MovieSearchError) (st : MoviesStore)
    : MoviesStore :=
  set_error (Some e) st.

(* ----------------------------------------------------------------- *)
(** *** The debounced input *)

(** [searchInput$] emits [query]: [share()] passes it to its subscribers in
    the order they subscribed: the filtered input of the first
    [combineLatest], the [map(() => 1)] merged into its second input, and
    the [switchMap] of the error pipeline. *)
Definition searchInput (query : jsString) (st : MoviesStore) : MoviesStore :=
  let st := if isQueryValid query then freshQuery query st else st in
  let st := freshPage 1 st in
  errorInput query st.

(* ----------------------------------------------------------------- *)
(** *** Methods *)

(** [this._searchString$.next(val)]: [debounceTime(500)] keeps the value and
    starts its interval again; the second [combineLatest] gets the value
    as it is. *)
Definition searchForString (val : jsString) (st : MoviesStore) : MoviesStore :=
  moreSearch val (set_debounced (Some (val, 500%nat)) st).

Definition setCurrentPage (page : Z) (st : MoviesStore) : MoviesStore :=
  freshPage page st.

Definition loadMore (st : MoviesStore) : MoviesStore :=
  moreClick st.

(** [selectPage] of the pagination view. *)
Definition selectPage (page : Z) (st : MoviesStore) : MoviesStore :=
  if (0 <? page) && (page <=? totalPages st)
  then setCurrentPage page st
  else st.

(* ----------------------------------------------------------------- *)
(** *** Time and the remote answers *)

(** The timer of [delay(500)]: when its last millisecond is over the
    delayed error reaches the subscriber. *)
Definition errorTick (st : MoviesStore) : MoviesStore :=
  match pendingError st with
  | Some (e, ms) =>
      if (ms <=? 1)%nat
      then set_error (Some e) (set_pendingError None st)
      else set_pendingError (Some (e, pred ms)) st
  | None => st
  end.

(** One millisecond passes.  The delayed error was scheduled before a
    debounce interval that ends in the same millisecond, so its timer comes
    first; then the interval of [debounceTime], which passes its value on
    when its last millisecond is over. *)
Definition tick (st : MoviesStore) : MoviesStore :=
  let st := errorTick st in
  match debounced st with
  | Some (query, ms) =>
      if (ms <=? 1)%nat
      then searchInput query (set_debounced None st)
      else set_debounced (Some (query, pred ms)) st
  | None => st
  end.

Fixpoint elapse (ms : nat) (st : MoviesStore) : MoviesStore :=
  match ms with
  | O => st
  | S ms' => elapse ms' (tick st)
  end.

(** The [next] handler of the first subscription. *)
Definition freshNext (moviesData : MoviesPage.t) (st : MoviesStore)
    : MoviesStore :=
  let st := set_moviesResponses [] st in
  let st := set_moviesResponses (_moviesResponses st ++ [moviesData]) st in
  set_noResultsFound
    (List.length (MoviesPage.movies moviesData) =? 0)%nat st.

(** The [error] handler of the first subscription. *)
Definition freshError (error : string) (st : MoviesStore) : MoviesStore :=
  let st := serverError SERVER_ERROR st in
  logger_error "Failed getting movies: " error st.

(** The [next] handler of the second subscription. *)
Definition moreNext (moviesData : MoviesPage.t) (st : MoviesStore)
    : MoviesStore :=
  set_moviesResponses (_moviesResponses st ++ [moviesData]) st.

(** The [error] handler of the second subscription. *)
Definition moreError (error : string) (st : MoviesStore) : MoviesStore :=
  let st := serverError SERVER_ERROR st in
  logger_error "Failed getting more movies for page: " error st.

Definition awaits (inner : option nat) (id : nat) : bool :=
  match inner with
  | Some i => (i =? id)%nat
  | None => false
  end.

(** Call number [id] ends with [outcome].  Only the subscription that made
    the call can hear of it, and only while its [switchMap] is still
    subscribed to it; an error ends the subscription. *)
Definition respond (id : nat) (outcome : Outcome) (st : MoviesStore)
    : MoviesStore :=
  match nth_error (calls st) id with
  | Some request =>
      match Request.origin request with
      | Fresh =>
          if freshLive (fresh st) && awaits (freshInner (fresh st)) id then
            match outcome with
            | Success moviesData =>
                freshNext moviesData
                  (set_fresh {| freshLive := true;
                                latestQuery := latestQuery (fresh st);
                                latestPage := latestPage (fresh st);
                                freshInner := None |} st)
            | Failure error =>
                freshError error
                  (set_fresh {| freshLive := false;
                                latestQuery := latestQuery (fresh st);
                                latestPage := latestPage (fresh st);
                                freshInner := None |} st)
            end
          else st
      | More =>
          if moreLive (more st) && awaits (moreInner (more st)) id then
            match outcome with
            | Success moviesData =>
                moreNext moviesData
                  (set_more {| moreLive := true;
                               latestSearch := latestSearch (more st);
                               moreSeen := moreSeen (more st);
                               moreInner := None |} st)
            | Failure error =>
                moreError error
                  (set_more {| moreLive := false;
                               latestSearch := latestSearch (more st);
                               moreSeen := moreSeen (more st);
                               moreInner := None |} st)
            end
          else st
      end
  | None => st
  end.

(** The observer handed to [subscribe]: its [next] handler, and its [error]
    handler when it has one. *)
Module Observer.
Record t := mk {
  next : MoviesPage.t -> MoviesStore -> MoviesStore;
  error : option (string -> MoviesStore -> MoviesStore);
}.
End Observer.

(** The observers of the first and of the second subscription. *)
Definition freshObserver : Observer.t :=
  {| Observer.next := freshNext; Observer.error := Some freshError |}.

Definition moreObserver : Observer.t :=
  {| Observer.next := moreNext; Observer.error := Some moreError |}.

(** What becomes of a notification: the observer handles it, or, for an
    error that the observer has no handler for, it is thrown to the host. *)
Inductive Delivery :=
| Handled (st : MoviesStore)
| Thrown (error : string) (st : MoviesStore).

Definition notify (o : Observer.t) (outcome : Outcome) (st : MoviesStore)
    : Delivery :=
  match outcome with
  | Success moviesData => Handled (Observer.next o moviesData st)
  | Failure error =>
      match Observer.error o with
      | Some handler => Handled (handler error st)
      | None => Thrown error st
      end
  end.

Definition succeeded (outcome : Outcome) : bool :=
  match outcome with Success _ => true | Failure _ => false end.

(** [respond], told through the observers: where the notification of call
    [id] ends. *)
Definition deliver (id : nat) (outcome : Outcome) (st : MoviesStore)
    : Delivery :=
  match nth_error (calls st) id with
  | Some request =>
      match Request.origin request with
      | Fresh =>
          if freshLive (fresh st) && awaits (freshInner (fresh st)) id then
            notify freshObserver outcome
              (set_fresh {| freshLive := succeeded outcome;
                            latestQuery := latestQuery (fresh st);
                            latestPage := latestPage (fresh st);
                            freshInner := None |} st)
          else Handled st
      | More =>
          if moreLive (more st) && awaits (moreInner (more st)) id then
            notify moreObserver outcome
              (set_more {| moreLive := succeeded outcome;
                           latestSearch := latestSearch (more st);
                           moreSeen := moreSeen (more st);
                           moreInner := None |} st)
          else Handled st
      end
  | None => Handled st
  end.

(** The remote client, as the answer it gives to each query and page. *)
Definition Remote := jsString -> Z -> Outcome.

(** The remote client answers call [id]. *)
Definition serve (remote : Remote) (id : nat) (st : MoviesStore)
    : MoviesStore :=
  match nth_error (calls st) id with
  | Some request =>
      respond id (remote (Request.query request) (Request.page request)) st
  | None => st
  end.

(* ----------------------------------------------------------------- *)
(** *** Runs *)

Inductive Event :=
| SearchForString (val : jsString)
| SetCurrentPage (page : Z)
| SelectPage (page : Z)
| LoadMore
| Elapse (ms : nat)
| Respond (id : nat) (outcome : Outcome)
| Serve (remote : Remote) (id : nat).

Definition step (st : MoviesStore) (ev : Event) : MoviesStore :=
  match ev with
  | SearchForString val => searchForString val st
  | SetCurrentPage page => setCurrentPage page st
  | SelectPage page => selectPage page st
  | LoadMore => loadMore st
  | Elapse ms => elapse ms st
  | Respond id outcome => respond id outcome st
  | Serve remote id => serve remote id st
  end.

Definition run (evs : list Event) (st : MoviesStore) : MoviesStore :=
  fold_left step evs st.

Definition reachable (st : MoviesStore) : Prop :=
  exists evs, st = run evs initial.

(** Consecutive page numbers, [a], [a+1], ... ([n] of them). *)
Fixpoint seqZ (a : Z) (n : nat) : list Z :=
  match n with
  | O => []
  | S n' => a :: seqZ (a + 1) n'
  end.

(** A remote client that has a page for every number: it answers with the
    page asked for, [total] pages in all and no movies. *)
Definition pageOf (total : Z) : Remote :=
  fun _ page => Success (MoviesPage.mk page total []).

(* ----------------------------------------------------------------- *)
(** *** Observations on a run *)

Definition isFresh (r : Request.t) : bool :=
  match Request.origin r with Fresh => true | More => false end.

(** The calls made by the first subscription. *)
Definition freshCalls (st : MoviesStore) : list Request.t :=
  filter isFresh (calls st).

(** Call [id] is the one its subscription is waiting for. *)
Definition awaited (st : MoviesStore) (id : nat) : bool :=
  match nth_error (calls st) id with
  | Some request =>
      match Request.origin request with
      | Fresh => freshLive (fresh st) && awaits (freshInner (fresh st)) id
      | More => moreLive (more st) && awaits (moreInner (more st)) id
      end
  | None => false
  end.

(** [st'] differs from [st] at most in the error, the delayed error and the
    debounce interval. *)
Definition quiet (st st' : MoviesStore) : Prop :=
  fresh st' = fresh st /\ more st' = more st /\ calls st' = calls st
  /\ logged st' = logged st /\ _moviesResponses st' = _moviesResponses st
  /\ _noResultsFound st' = _noResultsFound st.


(* ----------------------------------------------------------------- *)
(** *** Order of a page strip *)

(** Adjacent elements ascend. *)
Fixpoint ascending (l : list Z) : bool :=
  match l with
  | x :: (y :: _) as l' => (x <=? y) && ascending l'
  | _ => true
  end.

(** [x] may come next after the values [seen] of a set that is filtered to
    [1..total]: it is one of them, or it is above each of them that passes
    the filter. *)
Definition mayFollow (total : Z) (seen : list number) (x : number) : Prop :=
  In x seen \/
  forall z, x = Num z -> 1 <= z <= total ->
    forall y, In (Num y) seen -> 1 <= y <= total -> y < z.

Fixpoint inOrder (total : Z) (seen l : list number) : Prop :=
  match l with
  | [] => True
  | x :: l' => mayFollow total seen x /\ inOrder total (seen ++ [x]) l'
  end.

(* ----------------------------------------------------------------- *)
(** *** Runs used as examples *)

Definition abc : jsString := str "abc".

(** A search for "abc" answered with page 1 of 100; then page 99 is
    selected in the strip and more is asked for while that call is awaited;
    the selected page arrives first, the page loaded after page 1 second. *)
Definition raceTrace : list Event :=
  [SearchForString abc; Elapse 500; Serve (pageOf 100) 1;
   SelectPage 99; LoadMore;
   Serve (pageOf 100) 2; Serve (pageOf 100) 3].

Definition raced : MoviesStore := run raceTrace initial.

(** A window that holds page 50 of 100. *)
Definition page50 : MoviesStore :=
  set_moviesResponses [MoviesPage.mk 50 100 []] initial.

(** "abc" searched and answered, then more loaded twice: pages 1, 2, 3. *)
Definition threePages : MoviesStore :=
  run [SearchForString abc; Elapse 500; Serve (pageOf 100) 1;
       LoadMore; Serve (pageOf 100) 2; LoadMore; Serve (pageOf 100) 3]
      initial.

(** "abc" typed and left alone for 500 ms: the search is under way. *)
Definition searched : MoviesStore :=
  run [SearchForString abc; Elapse 500] initial.

(** The search for "abc" answered with page 1 of 5. *)
Definition answered : MoviesStore :=
  run [Serve (pageOf 5) 1] searched.

(** The search for "abc" has failed. *)
Definition failedFresh : MoviesStore :=
  run [Respond 1 (Failure "timeout")] searched.

(** More was asked for after page 1, and that call has failed. *)
Definition failedMore : MoviesStore :=
  run [LoadMore; Respond 2 (Failure "timeout")] answered.

(** A remote client whose number of pages depends on the query alone:
    5 pages for "abc", 9 for any other query. *)
Definition byQuery : Remote :=
  fun query page =>
    Success (MoviesPage.mk page
               (if list_eq_dec N.eq_dec query abc then 5 else 9) []).

(** "abc" is searched and answered; "xyz" is typed and, before its 500 ms
    are over, more is asked for and answered. *)
Definition mixedTrace : list Event :=
  [SearchForString abc; Elapse 500; Serve byQuery 1;
   SearchForString (str "xyz"); LoadMore; Serve byQuery 2].

Definition mixed : MoviesStore := run mixedTrace initial.

(** Page 3 of "abc" selected and answered. *)
Definition selected3 : MoviesStore :=
  run [SelectPage 3; Serve (pageOf 5) 2] answered.

(** "abc" is searched and answered, page 3 is selected and answered; then
    "ab" is typed and left alone for 500 ms. *)
Definition shortAfterValid : MoviesStore :=
  run [SearchForString (str "ab"); Elapse 500] selected3.

(** "ab" typed and left alone until the BadInput error shows; then the
    input is emptied. *)
Definition emptied : MoviesStore :=
  run [SearchForString (str "ab"); Elapse 1000; SearchForString []] initial.

Definition abcdef : jsString := str "abcdef".

(* ----------------------------------------------------------------- *)
(** *** The pagination view *)

(** [a.includes(x)]. *)
Definition includes (a : list Z) (x : Z) : bool := existsb (Z.eqb x) a.

(** [a.map((x, i) => f(x, i))]. *)
Fixpoint mapFrom {A B} (f : A -> Z -> B) (i : Z) (a : list A) : list B :=
  match a with
  | [] => []
  | x :: a' => f x i :: mapFrom f (i + 1) a'
  end.

Definition mapi {A B} (f : A -> Z -> B) (a : list A) : list B :=
  mapFrom f 0 a.

(** What [Pagination] hands to its children: whether "Previous" and "Next"
    are disabled, and for each page of the strip the page and the item
    before it ([previousItemInPagination]). *)
Record PaginationProps := {
  previousDisabled : bool;
  pageItems : list (Z * option Z);
  nextDisabled : bool;
}.

(** [Pagination]: [null] while no page is loaded. *)
Definition Pagination (st : MoviesStore) : option PaginationProps :=
  if (List.length (currentPages st) =? 0)%nat then None
  else Some {|
    previousDisabled := includes (currentPages st) 1;
    pageItems :=
      mapi (fun page i => (page, index (pagesToPickFrom st) (i - 1)))
           (pagesToPickFrom st);
    nextDisabled := includes (currentPages st) (totalPages st);
  |}.

(** [onClick] of "Previous":
    [selectPage((moviesStore?.firstOfCurrentPages ?? 1) - 1)]; exact when
    the first page is in the safe range. *)
Definition onPrevious (st : MoviesStore) : MoviesStore :=
  selectPage (match firstOfCurrentPages st with
              | Some first => first
              | None => 1
              end - 1) st.

(** [onClick] of "Next":
    [selectPage((moviesStore.lastOfCurrentPages ?? 1) + 1)]; exact when
    the last page is in the safe range. *)
Definition onNext (st : MoviesStore) : MoviesStore :=
  selectPage (match lastOfCurrentPages st with
              | Some last => last
              | None => 1
              end + 1) st.

(* ----------------------------------------------------------------- *)
(** *** More observations *)

(** The calls made by the second subscription. *)
Definition moreCalls (st : MoviesStore) : list Request.t :=
  filter (fun r => negb (isFresh r)) (calls st).

(** Texts typed one after the other, each followed by a pause. *)
Definition typeBurst (keys : list (jsString * nat)) (st : MoviesStore)
    : MoviesStore :=
  fold_left (fun st key => elapse (snd key) (searchForString (fst key) st))
            keys st.

(** The subscriptions that an error has ended. *)
Definition ended (st : MoviesStore) : nat :=
  ((if freshLive (fresh st) then 0 else 1)
   + (if moreLive (more st) then 0 else 1))%nat.

(** The timers of a store: the delayed error is the BadInput error, both
    timers have between 1 and 500 ms left, and the delayed error is due no
    later than the debounce interval. *)
Definition timersInOrder (st : MoviesStore) : Prop :=
  (forall e b, pendingError st = Some (e, b) ->
               e = BAD_INPUT /\ (1 <= b <= 500)%nat)
  /\ (forall q d, debounced st = Some (q, d) -> (1 <= d <= 500)%nat)
  /\ (forall e b q d, pendingError st = Some (e, b) ->
                      debounced st = Some (q, d) -> (b <= d)%nat).

(** Every query the first subscription holds or has called for is valid. *)
Definition freshQueriesValid (st : MoviesStore) : Prop :=
  (forall q, latestQuery (fresh st) = Some q -> isQueryValid q = true)
  /\ (forall r, In r (calls st) -> Request.origin r = Fresh ->
                isQueryValid (Request.query r) = true).

(** What the view shows of the answers, and the log. *)
Definition shown (st : MoviesStore) :=
  (_moviesResponses st, _noResultsFound st, logged st).

(** The store beside its first subscription and the calls. *)
Definition besideFresh (st : MoviesStore) :=
  (_error st, shown st, debounced st, pendingError st, more st).

(** The store beside its second subscription and the calls. *)
Definition besideMore (st : MoviesStore) :=
  (_error st, shown st, debounced st, pendingError st, fresh st).

(** Which subscriptions are live. *)
Definition lives (st : MoviesStore) : bool * bool :=
  (freshLive (fresh st), moreLive (more st)).


(** Both subscriptions have failed. *)
Definition bothFailed : MoviesStore :=
  run [SelectPage 1; Respond 3 (Failure "timeout")] failedMore.

(** "abc" is searched and answered; "ab" is typed and left alone until the
    BadInput error shows; page 3 is selected in the strip and answered. *)
Definition badInputOnPage3 : MoviesStore :=
  run [SearchForString (str "ab"); Elapse 1000;
       SelectPage 3; Serve (pageOf 5) 3] answered.

(** Then the input is emptied and left alone for 500 ms. *)
Definition emptiedOnPage3 : MoviesStore :=
  run [SearchForString []; Elapse 500] badInputOnPage3.

(* ================================================================= *)
(** * Properties *)

(* ================================================================= *)
(** ** Facts on the JavaScript values *)

Lemma sameValueZero_eq (a b : number) : sameValueZero a b = true <-> a = b.
Proof.
  destruct a as [x|], b as [y|]; simpl; split; intro H;
    try discriminate; try reflexivity.
  - apply Z.eqb_eq in H. now subst.
  - inversion H. apply Z.eqb_refl.
Qed.

Lemma existsb_sameValueZero (x : number) (s : list number) :
  existsb (sameValueZero x) s = true <-> In x s.
Proof.
  rewrite existsb_exists. split.
  - intros [y [Hy E]]. apply sameValueZero_eq in E. now subst.
  - intro H. exists x. split; [assumption | now apply sameValueZero_eq].
Qed.

Lemma setAdd_In (s : list number) (x y : number) :
  In y (setAdd s x) <-> In y s \/ y = x.
Proof.
  unfold setAdd. destruct (existsb (sameValueZero x) s) eqn:E.
  - apply existsb_sameValueZero in E. split; [now left|].
    intros [H | ->]; assumption.
  - rewrite in_app_iff. simpl. intuition congruence.
Qed.

Lemma fold_setAdd_In (l s : list number) (y : number) :
  In y (fold_left setAdd l s) <-> In y s \/ In y l.
Proof.
  revert s. induction l as [|x l IH]; intro s; simpl.
  - tauto.
  - rewrite IH, setAdd_In. intuition congruence.
Qed.

Lemma newSet_In (l : list number) (y : number) :
  In y (newSet l) <-> In y l.
Proof. unfold newSet. rewrite fold_setAdd_In. simpl. tauto. Qed.

Lemma setAdd_NoDup (s : list number) (x : number) :
  NoDup s -> NoDup (setAdd s x).
Proof.
  intro H. unfold setAdd. destruct (existsb (sameValueZero x) s) eqn:E.
  - assumption.
  - apply NoDup_rev in H. rewrite <- (rev_involutive (s ++ [x])).
    apply NoDup_rev. rewrite rev_app_distr. simpl. constructor; [|assumption].
    rewrite <- in_rev. intro Hin. apply existsb_sameValueZero in Hin.
    congruence.
Qed.

Lemma fold_setAdd_NoDup (l s : list number) :
  NoDup s -> NoDup (fold_left setAdd l s).
Proof.
  revert s. induction l as [|x l IH]; intros s H; simpl.
  - assumption.
  - apply IH, setAdd_NoDup, H.
Qed.

Lemma filterPages_In (total : Z) (l : list number) (z : Z) :
  In z (filterPages total l) <-> In (Num z) l /\ 1 <= z <= total.
Proof.
  induction l as [|[page|] l IH]; simpl.
  - tauto.
  - destruct (0 <? page) eqn:E1; destruct (page <=? total) eqn:E2; simpl;
      rewrite ?IH;
      try apply Z.ltb_lt in E1; try apply Z.ltb_ge in E1;
      try apply Z.leb_le in E2; try apply Z.leb_gt in E2;
      split; intros H; intuition (try congruence; try lia);
      match goal with
      | [ E : Num _ = Num _ |- _ ] => inversion E; subst; lia
      end.
  - rewrite IH. intuition discriminate.
Qed.

Lemma filterPages_NoDup (total : Z) (l : list number) :
  NoDup l -> NoDup (filterPages total l).
Proof.
  induction l as [|[page|] l IH]; intro H; simpl.
  - constructor.
  - inversion H as [|? ? Hn Hd]; subst.
    destruct ((0 <? page) && (page <=? total)).
    + constructor; [|now apply IH].
      rewrite filterPages_In. tauto.
    + now apply IH.
  - inversion H; subst. now apply IH.
Qed.

Lemma filterPages_app (total : Z) (l1 l2 : list number) :
  filterPages total (l1 ++ l2) = filterPages total l1 ++ filterPages total l2.
Proof.
  induction l1 as [|[page|] l1 IH]; simpl.
  - reflexivity.
  - destruct ((0 <? page) && (page <=? total)); simpl; now rewrite IH.
  - assumption.
Qed.

Lemma seqZ_In (n : nat) (a y : Z) :
  In y (seqZ a n) <-> a <= y < a + Z.of_nat n.
Proof.
  revert a. induction n as [|n IH]; intro a.
  - simpl. lia.
  - cbn [seqZ In]. rewrite IH. lia.
Qed.

Lemma seqZ_length (n : nat) (a : Z) : List.length (seqZ a n) = n.
Proof. revert a. induction n; intro a; simpl; congruence. Qed.

Lemma seqZ_nth (n i : nat) (a : Z) :
  (i < n)%nat -> nth_error (seqZ a n) i = Some (a + Z.of_nat i).
Proof.
  revert a i. induction n as [|n IH]; intros a i H; [lia|].
  destruct i as [|i]; simpl.
  - f_equal. lia.
  - rewrite IH by lia. f_equal. lia.
Qed.


(* ================================================================= *)
(** ** The order of [pagesToPickFrom] *)

Lemma Sorted_ascending (l : list Z) : Sorted Z.le l -> ascending l = true.
Proof.
  induction 1 as [|x l Hs IH Hd]; [reflexivity|].
  destruct l as [|y l]; [reflexivity|].
  inversion Hd; subst. cbn [ascending].
  apply andb_true_iff. split; [now apply Z.leb_le | assumption].
Qed.

Lemma StronglySorted_snoc (l : list Z) (z : Z) :
  StronglySorted Z.lt l -> (forall y, In y l -> y < z) ->
  StronglySorted Z.lt (l ++ [z]).
Proof.
  induction 1 as [|x l Hs IH Hx]; intro Hz; simpl.
  - repeat constructor.
  - constructor.
    + apply IH. intros y Hy. apply Hz. now right.
    + rewrite Forall_forall in *. intros y Hy.
      apply in_app_or in Hy. destruct Hy as [Hy | [<- | []]].
      * now apply Hx.
      * apply Hz. now left.
Qed.

Section Order.

Variable total : Z.

Lemma inOrder_app (l1 l2 seen : list number) :
  inOrder total seen (l1 ++ l2)
  <-> inOrder total seen l1 /\ inOrder total (seen ++ l1) l2.
Proof.
  revert seen. induction l1 as [|x l1 IH]; intro seen; simpl.
  - rewrite app_nil_r. tauto.
  - rewrite IH, <- app_assoc. simpl. tauto.
Qed.

Lemma setAdd_sorted (s : list number) (x : number) :
  StronglySorted Z.lt (filterPages total s) ->
  mayFollow total s x ->
  StronglySorted Z.lt (filterPages total (setAdd s x)).
Proof.
  intros Hs Hx. unfold setAdd.
  destruct (existsb (sameValueZero x) s) eqn:E; [assumption|].
  destruct Hx as [Hin | Hx].
  - apply existsb_sameValueZero in Hin. congruence.
  - rewrite filterPages_app. destruct x as [z|]; simpl.
    + destruct ((0 <? z) && (z <=? total)) eqn:Ez.
      * apply andb_true_iff in Ez. destruct Ez as [E1 E2].
        apply Z.ltb_lt in E1. apply Z.leb_le in E2.
        apply StronglySorted_snoc; [assumption|].
        intros y Hy. apply filterPages_In in Hy.
        apply (Hx z eq_refl); [lia | tauto | tauto].
      * now rewrite app_nil_r.
    + now rewrite app_nil_r.
Qed.

Lemma fold_setAdd_sorted (l seen : list number) :
  StronglySorted Z.lt (filterPages total (newSet seen)) ->
  inOrder total seen l ->
  StronglySorted Z.lt (filterPages total (newSet (seen ++ l))).
Proof.
  revert seen. induction l as [|x l IH]; intros seen Hs Hl.
  - now rewrite app_nil_r.
  - destruct Hl as [Hx Hl].
    replace (seen ++ x :: l) with ((seen ++ [x]) ++ l)
      by (rewrite <- app_assoc; reflexivity).
    apply IH; [|assumption].
    unfold newSet in *. rewrite fold_left_app. simpl.
    apply setAdd_sorted; [assumption|].
    destruct Hx as [Hin | Hx]; [left | right].
    + apply fold_setAdd_In. now right.
    + intros z Ez Hz y Hy. apply fold_setAdd_In in Hy.
      destruct Hy as [[] | Hy]. now apply (Hx z Ez Hz y).
Qed.

Lemma newSet_sorted (l : list number) :
  inOrder total [] l -> StronglySorted Z.lt (filterPages total (newSet l)).
Proof.
  intro H. apply (fold_setAdd_sorted l []); [constructor | assumption].
Qed.

(** A run of consecutive pages keeps the order, after values that are
    below the run or among the two first pages. *)
Lemma inOrder_seqZ (n : nat) (a : Z) (seen : list number) :
  1 <= a ->
  In (Num 1) seen -> In (Num 2) seen ->
  (forall y, In (Num y) seen -> y < a \/ y <= 2) ->
  inOrder total seen (map Num (seqZ a n)).
Proof.
  revert a seen. induction n as [|n IH]; intros a seen Ha H1 H2 Hlow.
  - exact I.
  - cbn [seqZ map inOrder]. split.
    + destruct (Z_le_gt_dec a 2) as [Hle | Hgt].
      * left. assert (a = 1 \/ a = 2) as [-> | ->] by lia; assumption.
      * right. intros z Ez _ y Hy _. inversion Ez; subst.
        destruct (Hlow y Hy); lia.
    + apply IH.
      * lia.
      * apply in_or_app. now left.
      * apply in_or_app. now left.
      * intros y Hy. apply in_app_or in Hy.
        destruct Hy as [Hy | [Ey | []]].
        -- destruct (Hlow y Hy); lia.
        -- inversion Ey. lia.
Qed.

End Order.

Lemma Num_inj (a b : Z) : Num a = Num b <-> a = b.
Proof. split; [now inversion 1 | now intros ->]. Qed.

Lemma In_Num_map (y : Z) (l : list Z) : In (Num y) (map Num l) <-> In y l.
Proof.
  rewrite in_map_iff. split.
  - intros [x [E H]]. apply Num_inj in E. now subst.
  - intro H. now exists y.
Qed.

Lemma number_eq_dec (a b : number) : {a = b} + {a <> b}.
Proof. decide equality. apply Z.eq_dec. Qed.

(** Membership in a list of candidates, as arithmetic. *)
Ltac members :=
  repeat first
    [ rewrite in_app_iff in *
    | progress cbn [In] in *
    | rewrite In_Num_map in *
    | rewrite seqZ_In in *
    | rewrite Num_inj in * ].

(** [x] is among the values seen, or else above those that pass the filter:
    settled by arithmetic once membership is unfolded. *)
Ltac follows :=
  match goal with
  | [ |- mayFollow _ ?seen ?x ] =>
      destruct (in_dec number_eq_dec x seen) as [Hin | Hout];
      [ now left
      | right; intros ? Ez ? ? Hy ?; apply Num_inj in Ez; subst;
        members; lia ]
  end.

Lemma index_last (a : Z) (n : nat) :
  index (seqZ a (S n)) (Z.of_nat (List.length (seqZ a (S n))) - 1)
  = Some (a + Z.of_nat n).
Proof.
  rewrite seqZ_length. unfold index.
  replace (Z.of_nat (S n) - 1) with (Z.of_nat n) by lia.
  destruct (Z.of_nat n <? 0) eqn:E; [apply Z.ltb_lt in E; lia|].
  rewrite Nat2Z.id. apply seqZ_nth. lia.
Qed.

Lemma candidates_consecutive (st : MoviesStore) (a : Z) (n : nat) :
  currentPages st = seqZ a (S n) ->
  candidates st =
    [Num 1; Num 2; Num (a - 2); Num (a - 1)]
    ++ map Num (seqZ a (S n))
    ++ [Num (a + Z.of_nat n + 1); Num (a + Z.of_nat n + 2);
        Num (totalPages st - 1); Num (totalPages st)].
Proof.
  intro H. unfold candidates. rewrite H, index_last.
  reflexivity.
Qed.

Lemma candidates_inOrder (st : MoviesStore) (a : Z) (n : nat) :
  currentPages st = seqZ a (S n) ->
  1 <= a -> a + Z.of_nat n <= totalPages st ->
  inOrder (totalPages st) [] (candidates st).
Proof.
  intros H Ha Hb. rewrite (candidates_consecutive st a n H).
  set (total := totalPages st) in *.
  apply inOrder_app. split; [|apply inOrder_app; split].
  - cbn [inOrder app]. repeat split; follows.
  - apply inOrder_seqZ; cbn [app In]; auto.
    intros y Hy. members. lia.
  - cbn [inOrder app]. repeat split; follows.
Qed.

(* ================================================================= *)
(** ** [pagesToPickFrom] *)

Lemma pagesToPickFrom_In (st : MoviesStore) (x : Z) :
  In x (pagesToPickFrom st)
  <-> In (Num x) (candidates st) /\ 1 <= x <= totalPages st.
Proof.
  unfold pagesToPickFrom. now rewrite filterPages_In, newSet_In.
Qed.

Lemma pagesToPickFrom_NoDup (st : MoviesStore) : NoDup (pagesToPickFrom st).
Proof.
  apply filterPages_NoDup. unfold newSet. apply fold_setAdd_NoDup. constructor.
Qed.

Lemma pagesToPickFrom_consecutive (st : MoviesStore) (a : Z) (n : nat) :
  currentPages st = seqZ a (S n) ->
  1 <= a -> a + Z.of_nat n <= totalPages st ->
  StronglySorted Z.lt (pagesToPickFrom st).
Proof.
  intros H Ha Hb. apply newSet_sorted. now apply (candidates_inOrder st a n).
Qed.

(** C1, as the code has it.  For a window whose page numbers and
    [totalPages] are in the safe range (magnitude at most 2^53 - 2, where
    the sums and differences of the getter are exact): [pagesToPickFrom]
    holds exactly the members of [{1, 2, lowest-2, lowest-1,
    ...currentPages, highest+1, highest+2, totalPages-1, totalPages}] that
    lie in [1..totalPages], each once.  The getter does not sort them; they
    are ascending whenever the window holds consecutive pages
    [a, a+1, ..., a+n] inside [1..totalPages], and for a window [[50]] of
    100 pages they are [[1, 2, 48, 49, 50, 51, 52, 99, 100]]. *)
Theorem pagesToPickFrom_members_and_order (st : MoviesStore) :
  safePages st = true ->
  (forall x, In x (pagesToPickFrom st)
             <-> In (Num x) (candidates st) /\ 1 <= x <= totalPages st)
  /\ NoDup (pagesToPickFrom st)
  /\ (forall a n, currentPages st = seqZ a (S n) ->
                  1 <= a -> a + Z.of_nat n <= totalPages st ->
                  StronglySorted Z.lt (pagesToPickFrom st))
  /\ (currentPages st = [50] -> totalPages st = 100 ->
      pagesToPickFrom st = [1; 2; 48; 49; 50; 51; 52; 99; 100]).
Proof.
  intros _.
  split; [apply pagesToPickFrom_In|].
  split; [apply pagesToPickFrom_NoDup|].
  split; [apply pagesToPickFrom_consecutive|].
  intros Hw Ht. unfold pagesToPickFrom, candidates. rewrite Hw, Ht.
  reflexivity.
Qed.

Lemma pagesToPickFrom_members_and_order_witness :
  safePages threePages = true /\ safePages page50 = true
  /\ StronglySorted Z.lt (pagesToPickFrom threePages)
  /\ pagesToPickFrom page50 = [1; 2; 48; 49; 50; 51; 52; 99; 100].
Proof.
  assert (H3 : safePages threePages = true) by (vm_compute; reflexivity).
  assert (H50 : safePages page50 = true) by (vm_compute; reflexivity).
  split; [exact H3|]. split; [exact H50|]. split.
  - apply (proj1 (proj2 (proj2
             (pagesToPickFrom_members_and_order threePages H3))) 1 2%nat).
    + reflexivity.
    + lia.
    + vm_compute. discriminate.
  - apply (proj2 (proj2 (proj2
             (pagesToPickFrom_members_and_order page50 H50)))); reflexivity.
Defined.

(** C1 fails as stated: in a window reached by selecting page 99 while more
    is being loaded after page 1, the strip is not ascending. *)
Lemma pagesToPickFrom_not_ascending :
  reachable raced
  /\ currentPages raced = [99; 2]
  /\ totalPages raced = 100
  /\ pagesToPickFrom raced = [1; 2; 97; 98; 99; 3; 4; 100]
  /\ ~ Sorted Z.le (pagesToPickFrom raced).
Proof.
  split; [exists raceTrace; reflexivity|].
  repeat split.
  intro H. apply Sorted_ascending in H. vm_compute in H. discriminate.
Qed.

(** C10.  With no page loaded, [totalPages] is 0, the four candidates taken
    from the ends of the window are [NaN], and nothing passes the filter:
    [pagesToPickFrom] is empty. *)
Theorem pagesToPickFrom_empty_window (st : MoviesStore) :
  _moviesResponses st = [] ->
  totalPages st = 0
  /\ candidates st = [Num 1; Num 2; NaN; NaN; NaN; NaN; Num (-1); Num 0]
  /\ pagesToPickFrom st = [].
Proof.
  intro H. unfold pagesToPickFrom, candidates, totalPages, currentPages.
  rewrite H. repeat split.
Qed.

Lemma pagesToPickFrom_empty_window_witness :
  _moviesResponses initial = []
  /\ totalPages initial = 0
  /\ candidates initial = [Num 1; Num 2; NaN; NaN; NaN; NaN; Num (-1); Num 0]
  /\ pagesToPickFrom initial = [].
Proof.
  split; [reflexivity|].
  apply (pagesToPickFrom_empty_window initial). reflexivity.
Defined.

(* ================================================================= *)
(** ** The passing of time *)

Lemma quiet_refl (st : MoviesStore) : quiet st st.
Proof. repeat split. Qed.

Lemma quiet_trans (a b c : MoviesStore) : quiet a b -> quiet b c -> quiet a c.
Proof. unfold quiet. intuition congruence. Qed.

Lemma errorTick_quiet (st : MoviesStore) :
  quiet st (errorTick st) /\ debounced (errorTick st) = debounced st.
Proof.
  unfold errorTick. destruct (pendingError st) as [[e ms]|];
    [destruct (ms <=? 1)%nat|]; repeat split.
Qed.

Lemma tick_errorTick (st : MoviesStore) :
  tick st =
    match debounced (errorTick st) with
    | Some (query, ms) =>
        if (ms <=? 1)%nat
        then searchInput query (set_debounced None (errorTick st))
        else set_debounced (Some (query, pred ms)) (errorTick st)
    | None => errorTick st
    end.
Proof. reflexivity. Qed.

(** While the interval of [debounceTime] runs, nothing is searched. *)
Lemma tick_wait (st : MoviesStore) (q : jsString) (n : nat) :
  debounced st = Some (q, S (S n)) ->
  debounced (tick st) = Some (q, S n) /\ quiet st (tick st).
Proof.
  intro H. rewrite tick_errorTick.
  destruct (errorTick_quiet st) as [Hq Hd]. rewrite Hd, H.
  cbn [Nat.leb pred]. split; [reflexivity|].
  apply (quiet_trans _ _ _ Hq). repeat split.
Qed.

(** When it ends, the value is passed on. *)
Lemma tick_commit (st : MoviesStore) (q : jsString) :
  debounced st = Some (q, 1%nat) ->
  exists st1, tick st = searchInput q st1 /\ quiet st st1
              /\ debounced st1 = None.
Proof.
  intro H. rewrite tick_errorTick.
  destruct (errorTick_quiet st) as [Hq Hd]. rewrite Hd, H.
  cbn [Nat.leb]. eexists. split; [reflexivity|]. split.
  - apply (quiet_trans _ _ _ Hq). repeat split.
  - reflexivity.
Qed.

Lemma elapse_wait (d : nat) (st : MoviesStore) (q : jsString) (n : nat) :
  debounced st = Some (q, n) -> (d < n)%nat ->
  debounced (elapse d st) = Some (q, (n - d)%nat) /\ quiet st (elapse d st).
Proof.
  revert st n. induction d as [|d IH]; intros st n H Hd.
  - cbn [elapse]. rewrite Nat.sub_0_r. split; [assumption | apply quiet_refl].
  - destruct n as [|[|n]]; try lia.
    destruct (tick_wait st q n H) as [H1 Hq]. cbn [elapse].
    destruct (IH (tick st) (S n) H1) as [H2 Hq2]; [lia|].
    split; [rewrite H2; f_equal; f_equal; lia|].
    apply (quiet_trans _ _ _ Hq Hq2).
Qed.

Lemma elapse_commit (n : nat) (st : MoviesStore) (q : jsString) :
  debounced st = Some (q, S n) ->
  exists st1, elapse (S n) st = searchInput q st1 /\ quiet st st1
              /\ debounced st1 = None.
Proof.
  revert st. induction n as [|n IH]; intros st H.
  - destruct (tick_commit st q H) as [st1 [E [Hq Hd]]].
    exists st1. cbn [elapse]. auto.
  - destruct (tick_wait st q n H) as [H1 Hq]. 
    destruct (IH (tick st) H1) as [st1 [E [Hq1 Hd]]].
    exists st1. split; [exact E|]. split; [|exact Hd].
    apply (quiet_trans _ _ _ Hq Hq1).
Qed.

(* ================================================================= *)
(** ** What each input does *)

(** A text handed to [searchForString] restarts the debounce interval and
    reaches the second subscription; the first one, the window and the error
    do not hear of it. *)
Lemma searchForString_effect (val : jsString) (st : MoviesStore) :
  debounced (searchForString val st) = Some (val, 500%nat)
  /\ fresh (searchForString val st) = fresh st
  /\ freshCalls (searchForString val st) = freshCalls st
  /\ _moviesResponses (searchForString val st) = _moviesResponses st
  /\ _error (searchForString val st) = _error st
  /\ pendingError (searchForString val st) = pendingError st.
Proof.
  unfold searchForString, moreSearch, moreSwitch, freshCalls.
  cbn. destruct (moreLive (more st)); [destruct (moreSeen (more st))|];
    cbn; repeat split.
  rewrite filter_app. cbn. apply app_nil_r.
Qed.

(** The calls of [searchForString]: none, unless more was asked for before;
    then one of the second subscription, for the text as it is. *)
Lemma searchForString_calls (val : jsString) (st : MoviesStore) :
  calls (searchForString val st) =
    calls st ++
    (if moreLive (more st) && moreSeen (more st)
     then [Request.mk More val (nextPage st)] else []).
Proof.
  unfold searchForString, moreSearch, moreSwitch.
  cbn. destruct (moreLive (more st)); [destruct (moreSeen (more st))|];
    cbn; now rewrite ?app_nil_r.
Qed.

(** A valid text leaves the debounce while the first subscription is live:
    [combineLatest] emits twice, for the text with the page it had, and for
    the text with page 1; [switchMap] is left waiting for the second call. *)
Lemma searchInput_valid (query : jsString) (st : MoviesStore) :
  isQueryValid query = true ->
  freshLive (fresh st) = true ->
  calls (searchInput query st) =
    calls st ++ [Request.mk Fresh query (latestPage (fresh st));
                 Request.mk Fresh query 1]
  /\ fresh (searchInput query st) =
       {| freshLive := true; latestQuery := Some query; latestPage := 1;
          freshInner := Some (S (List.length (calls st))) |}
  /\ more (searchInput query st) = more st
  /\ _moviesResponses (searchInput query st) = _moviesResponses st
  /\ _noResultsFound (searchInput query st) = _noResultsFound st
  /\ _error (searchInput query st) = None
  /\ pendingError (searchInput query st) = None.
Proof.
  intros Hv Hl. unfold searchInput, errorInput. rewrite Hv, orb_true_r.
  unfold freshQuery. rewrite Hl. unfold freshPage, freshSwitch. cbn.
  rewrite <- app_assoc, length_app. cbn.
  repeat split. do 2 f_equal. lia.
Qed.

(** A text that is not valid leaves the debounce: the first input of
    [combineLatest] does not get it, the second one gets page 1. *)
Lemma searchInput_invalid (query : jsString) (st : MoviesStore) :
  isQueryValid query = false ->
  searchInput query st = errorInput query (freshPage 1 st).
Proof. intro Hv. unfold searchInput. now rewrite Hv. Qed.

Lemma freshPage_effect (page : Z) (st : MoviesStore) :
  _moviesResponses (freshPage page st) = _moviesResponses st
  /\ _noResultsFound (freshPage page st) = _noResultsFound st
  /\ _error (freshPage page st) = _error st
  /\ pendingError (freshPage page st) = pendingError st
  /\ more (freshPage page st) = more st
  /\ logged (freshPage page st) = logged st
  /\ calls (freshPage page st) =
       calls st ++
       (if freshLive (fresh st) then
          match latestQuery (fresh st) with
          | Some searchString => [Request.mk Fresh searchString page]
          | None => []
          end
        else []).
Proof.
  unfold freshPage, freshSwitch.
  destruct (freshLive (fresh st)); [destruct (latestQuery (fresh st))|];
    cbn; rewrite ?app_nil_r; repeat split.
Qed.

Lemma nth_error_snoc {A} (l : list A) (x : A) :
  nth_error (l ++ [x]) (List.length l) = Some x.
Proof. rewrite nth_error_app2, Nat.sub_diag by lia. reflexivity. Qed.

(** An answer to a call that no subscription waits for changes nothing. *)
Lemma respond_not_awaited (id : nat) (outcome : Outcome) (st : MoviesStore) :
  awaited st id = false -> respond id outcome st = st.
Proof.
  unfold awaited, respond. destruct (nth_error (calls st) id) as [r|];
    [|reflexivity].
  destruct (Request.origin r); intros ->; reflexivity.
Qed.

(** A page that answers the call the first subscription waits for replaces
    the window. *)
Lemma respond_fresh_success (id : nat) (r : Request.t)
    (moviesData : MoviesPage.t) (st : MoviesStore) :
  nth_error (calls st) id = Some r -> Request.origin r = Fresh ->
  awaited st id = true ->
  _moviesResponses (respond id (Success moviesData) st) = [moviesData]
  /\ _noResultsFound (respond id (Success moviesData) st)
     = (List.length (MoviesPage.movies moviesData) =? 0)%nat.
Proof.
  unfold awaited, respond. intros -> ->. intros ->. split; reflexivity.
Qed.

(** A page that answers the call the second subscription waits for is put
    at the end of the window. *)
Lemma respond_more_success (id : nat) (r : Request.t)
    (moviesData : MoviesPage.t) (st : MoviesStore) :
  nth_error (calls st) id = Some r -> Request.origin r = More ->
  awaited st id = true ->
  let st' := respond id (Success moviesData) st in
  _moviesResponses st' = _moviesResponses st ++ [moviesData]
  /\ _noResultsFound st' = _noResultsFound st
  /\ _error st' = _error st
  /\ calls st' = calls st
  /\ more st' = {| moreLive := true; latestSearch := latestSearch (more st);
                   moreSeen := moreSeen (more st); moreInner := None |}.
Proof.
  unfold awaited, respond. intros -> ->. intros ->. repeat split.
Qed.

(** A failure of an awaited call. *)
Lemma respond_failure (id : nat) (error : string) (st : MoviesStore) :
  awaited st id = true ->
  let st' := respond id (Failure error) st in
  _error st' = Some SERVER_ERROR
  /\ (exists t, logged st' = logged st ++ [{| text := t; cause := error |}])
  /\ _moviesResponses st' = _moviesResponses st
  /\ _noResultsFound st' = _noResultsFound st
  /\ calls st' = calls st.
Proof.
  unfold awaited, respond. destruct (nth_error (calls st) id) as [r|];
    [|discriminate].
  destruct (Request.origin r); intros ->; cbn;
    repeat split; eexists; reflexivity.
Qed.

(* ================================================================= *)
(** ** A new search *)

(** A valid text is handed to [searchForString] and left alone for 500 ms
    while the first subscription is live. *)
Lemma valid_text_after_500 (st : MoviesStore) (query : jsString) :
  isQueryValid query = true ->
  freshLive (fresh st) = true ->
  let typed := searchForString query st in
  let st' := elapse 500 typed in
  let id := S (List.length (calls typed)) in
  calls st' = calls typed ++ [Request.mk Fresh query (latestPage (fresh st));
                              Request.mk Fresh query 1]
  /\ nth_error (calls st') id = Some (Request.mk Fresh query 1)
  /\ awaited st' id = true
  /\ (forall id' r, nth_error (calls st') id' = Some r ->
                    Request.origin r = Fresh -> awaited st' id' = true ->
                    id' = id).
Proof.
  intros Hv Hl typed st' id.
  destruct (searchForString_effect query st) as [Hd [Hf _]].
  destruct (elapse_commit 499 typed query Hd) as [st1 [E [Hq _]]].
  destruct Hq as [Hf1 [_ [Hc1 _]]].
  assert (Hl1 : freshLive (fresh st1) = true)
    by (rewrite Hf1; unfold typed; rewrite Hf; exact Hl).
  destruct (searchInput_valid query st1 Hv Hl1) as [Hc [Hfr _]].
  fold st' in E. rewrite <- E in Hc, Hfr.
  rewrite Hc1, Hf1 in Hc. unfold typed in Hc at 2. rewrite Hf in Hc.
  rewrite Hc1 in Hfr. fold id in Hfr.
  assert (Hn : nth_error (calls st') id = Some (Request.mk Fresh query 1)).
  { rewrite Hc. unfold id.
    change [Request.mk Fresh query (latestPage (fresh st));
            Request.mk Fresh query 1]
      with ([Request.mk Fresh query (latestPage (fresh st))]
            ++ [Request.mk Fresh query 1]).
    rewrite app_assoc.
    replace (S (List.length (calls typed)))
      with (List.length (calls typed
                         ++ [Request.mk Fresh query (latestPage (fresh st))]))
      by (rewrite length_app; cbn; lia).
    apply nth_error_snoc. }
  split; [exact Hc|]. split; [exact Hn|]. split.
  - unfold awaited. rewrite Hn, Hfr.
    cbn [Request.origin freshLive freshInner awaits andb].
    apply Nat.eqb_refl.
  - intros id' r Hr Ho Ha. unfold awaited in Ha. rewrite Hr, Ho, Hfr in Ha.
    cbn [freshLive freshInner awaits andb] in Ha.
    apply Nat.eqb_eq in Ha. now subst.
Qed.

(** C2, as the code has it.  A valid text (trimmed length at least 3) is
    handed to [searchForString] and left alone for 500 ms, while the first
    subscription is live.  Then two calls are made, both for that text: one
    with the page selected last, dropped at once, and one for page 1, which
    is the only call of the first subscription still awaited.  Whenever a
    page answers an awaited call of the first subscription, the window
    becomes that page alone and [noResultsFound] tells whether it has no
    movies. *)
Theorem valid_query_searches_page_one (st : MoviesStore) (query : jsString) :
  isQueryValid query = true ->
  freshLive (fresh st) = true ->
  let typed := searchForString query st in
  let st' := elapse 500 typed in
  let id := S (List.length (calls typed)) in
  calls st' = calls typed ++ [Request.mk Fresh query (latestPage (fresh st));
                              Request.mk Fresh query 1]
  /\ nth_error (calls st') id = Some (Request.mk Fresh query 1)
  /\ awaited st' id = true
  /\ (forall id' r, nth_error (calls st') id' = Some r ->
                    Request.origin r = Fresh -> awaited st' id' = true ->
                    id' = id)
  /\ (forall s id' r moviesData,
        nth_error (calls s) id' = Some r -> Request.origin r = Fresh ->
        awaited s id' = true ->
        _moviesResponses (respond id' (Success moviesData) s) = [moviesData]
        /\ noResultsFound (respond id' (Success moviesData) s)
           = (List.length (MoviesPage.movies moviesData) =? 0)%nat).
Proof.
  intros Hv Hl typed st' id.
  destruct (valid_text_after_500 st query Hv Hl) as [Hc [Hn [Ha Hu]]].
  repeat split; try assumption.
  - now apply (respond_fresh_success id' r).
  - now apply (respond_fresh_success id' r).
Qed.

Lemma valid_query_searches_page_one_witness :
  calls searched = [Request.mk Fresh abc 1; Request.mk Fresh abc 1]
  /\ awaited searched 1 = true.
Proof.
  destruct (valid_query_searches_page_one initial abc eq_refl eq_refl)
    as [Hc [_ [Ha _]]].
  split; [exact Hc | exact Ha].
Defined.

(** C2 fails as stated: the first search makes two calls, not one; and once
    a call of the first subscription has failed, a valid text makes none. *)
Lemma valid_query_not_exactly_one_call :
  List.length (calls (run [SearchForString abc; Elapse 500] initial)) = 2%nat
  /\ isQueryValid abc = true
  /\ calls (run [SearchForString abc; Elapse 500] failedFresh)
     = calls failedFresh.
Proof. vm_compute. repeat split. Qed.

(* ================================================================= *)
(** ** Failures *)

Lemma deliver_respond (id : nat) (outcome : Outcome) (st : MoviesStore) :
  deliver id outcome st = Handled (respond id outcome st).
Proof.
  unfold deliver, respond.
  destruct (nth_error (calls st) id) as [r|]; [|reflexivity].
  destruct (Request.origin r);
    [destruct (freshLive (fresh st) && awaits (freshInner (fresh st)) id)
    |destruct (moreLive (more st) && awaits (moreInner (more st)) id)];
    try destruct outcome; reflexivity.
Qed.

(** C8, as the code has it.  When a remote call that its subscription still
    waits for fails, in the first or in the second subscription, the
    failure ends in the [error] handler of that subscription and nothing is
    thrown; the error becomes [SERVER_ERROR], the server error with the
    fixed message; the cause is logged; the window is as it was. *)
Theorem remote_failure_is_server_error
    (st : MoviesStore) (id : nat) (error : string) :
  awaited st id = true ->
  let st' := respond id (Failure error) st in
  deliver id (Failure error) st = Handled st'
  /\ _error st' = Some SERVER_ERROR
  /\ type SERVER_ERROR = ServerError
  /\ message SERVER_ERROR
     = "Oops, something went wrong. Please try again later."%string
  /\ (exists t, logged st' = logged st ++ [{| text := t; cause := error |}])
  /\ _moviesResponses st' = _moviesResponses st.
Proof.
  intros Ha st'.
  destruct (respond_failure id error st Ha) as [He [Hlog [Hw _]]].
  split; [apply deliver_respond|].
  repeat split; assumption.
Qed.

Lemma remote_failure_is_server_error_witness :
  awaited searched 1 = true
  /\ _error failedFresh = Some SERVER_ERROR
  /\ _moviesResponses failedFresh = _moviesResponses searched.
Proof.
  assert (Ha : awaited searched 1 = true) by (vm_compute; reflexivity).
  destruct (remote_failure_is_server_error searched 1 "timeout" Ha)
    as [_ [He [_ [_ [_ Hw]]]]].
  split; [exact Ha|]. split; [exact He | exact Hw].
Defined.

(** C8 fails as stated: the first of the two calls made when "abc" is
    committed is dropped at once; when it fails, no error is set and
    nothing is logged. *)
Lemma superseded_failure_is_not_heard :
  nth_error (calls searched) 0 = Some (Request.mk Fresh abc 1)
  /\ awaited searched 0 = false
  /\ respond 0 (Failure "timeout") searched = searched
  /\ _error (respond 0 (Failure "timeout") searched) = None
  /\ logged (respond 0 (Failure "timeout") searched) = [].
Proof. vm_compute. repeat split. Qed.

(* ================================================================= *)
(** ** Selecting a page *)

(** C5, as the code has it.  For a page below 1 or above [totalPages],
    [selectPage] of the pagination view does not reach the store, which
    stays as it is: no call, the same window, the same [totalPages].  The
    range is checked there only; [setCurrentPage] itself leaves the window
    and [totalPages] as they are at the time it is called. *)
Theorem selectPage_out_of_range (st : MoviesStore) (n : Z) :
  n < 1 \/ n > totalPages st ->
  selectPage n st = st
  /\ calls (selectPage n st) = calls st
  /\ _moviesResponses (selectPage n st) = _moviesResponses st
  /\ movies (selectPage n st) = movies st
  /\ totalPages (selectPage n st) = totalPages st
  /\ _moviesResponses (setCurrentPage n st) = _moviesResponses st
  /\ totalPages (setCurrentPage n st) = totalPages st.
Proof.
  intro H.
  assert (E : selectPage n st = st).
  { unfold selectPage.
    destruct (0 <? n) eqn:E1; destruct (n <=? totalPages st) eqn:E2;
      try reflexivity.
    apply Z.ltb_lt in E1. apply Z.leb_le in E2. lia. }
  rewrite E. repeat split.
  - apply (freshPage_effect n st).
  - unfold totalPages, setCurrentPage.
    now rewrite (proj1 (freshPage_effect n st)).
Qed.

Lemma selectPage_out_of_range_witness :
  selectPage 0 answered = answered
  /\ selectPage (totalPages answered + 1) answered = answered.
Proof.
  split.
  - apply (selectPage_out_of_range answered 0). left. lia.
  - apply (selectPage_out_of_range answered (totalPages answered + 1)).
    right. lia.
Defined.

(** C5 fails as stated: the store itself does not check the range.  With
    page 1 of 5 in the window, [setCurrentPage] makes a call for page 0 and
    for page 6, and the page that answers becomes the window. *)
Lemma setCurrentPage_out_of_range_calls :
  totalPages answered = 5
  /\ calls (setCurrentPage 0 answered)
     = calls answered ++ [Request.mk Fresh abc 0]
  /\ calls (setCurrentPage (totalPages answered + 1) answered)
     = calls answered ++ [Request.mk Fresh abc 6]
  /\ currentPages (serve (pageOf 5) 2 (setCurrentPage 0 answered)) = [0].
Proof. vm_compute. repeat split. Qed.

(* ================================================================= *)
(** ** Two texts within one debounce interval *)

(** C4, as the code has it.  A text is handed to [searchForString] and,
    less than 500 ms later, a second, valid one, which is then left alone
    for 500 ms; the first subscription is live.  The first subscription
    makes no call before the second text is committed, and then two, both
    for the second text: one with the page selected last, dropped at once,
    and one for page 1, the only one still awaited.  An answer to a call
    that is not awaited changes nothing. *)
Theorem later_text_wins (st : MoviesStore) (q1 q2 : jsString) (d : nat) :
  (d < 500)%nat ->
  freshLive (fresh st) = true ->
  isQueryValid q2 = true ->
  let typed := searchForString q2 (elapse d (searchForString q1 st)) in
  let st' := elapse 500 typed in
  let id := S (List.length (calls typed)) in
  freshCalls typed = freshCalls st
  /\ calls st' = calls typed ++ [Request.mk Fresh q2 (latestPage (fresh st));
                                 Request.mk Fresh q2 1]
  /\ nth_error (calls st') id = Some (Request.mk Fresh q2 1)
  /\ awaited st' id = true
  /\ (forall id' r, nth_error (calls st') id' = Some r ->
                    Request.origin r = Fresh -> awaited st' id' = true ->
                    id' = id)
  /\ (forall s id' outcome,
        awaited s id' = false -> respond id' outcome s = s).
Proof.
  intros Hd Hl Hv typed st' id.
  destruct (searchForString_effect q1 st) as [Hd1 [Hf1 [Hc1 _]]].
  destruct (elapse_wait d (searchForString q1 st) q1 500 Hd1 Hd)
    as [_ [Hf2 [_ [Hc2 _]]]].
  set (waited := elapse d (searchForString q1 st)) in *.
  assert (Hf : fresh waited = fresh st) by congruence.
  assert (Hl2 : freshLive (fresh waited) = true) by (rewrite Hf; exact Hl).
  destruct (valid_text_after_500 waited q2 Hv Hl2) as [Hc [Hn [Ha Hu]]].
  rewrite Hf in Hc.
  split.
  - unfold typed.
    rewrite (proj1 (proj2 (proj2 (searchForString_effect q2 waited)))).
    unfold freshCalls in *. now rewrite Hc2.
  - repeat split; try assumption.
    intros s id' outcome. apply respond_not_awaited.
Qed.

Lemma later_text_wins_witness :
  calls (run [SearchForString abc; SearchForString abcdef; Elapse 500] initial)
  = [Request.mk Fresh abcdef 1; Request.mk Fresh abcdef 1].
Proof.
  apply (later_text_wins initial abc abcdef 0); [lia | reflexivity..].
Defined.

(** C4 fails as stated: the later text makes two calls, not one; and once
    more has been asked for, each text is also called for as it is typed,
    the earlier one too. *)
Lemma two_texts_not_exactly_one_call :
  List.length
    (calls (run [SearchForString abc; SearchForString abcdef; Elapse 500]
                initial)) = 2%nat
  /\ skipn (List.length (calls threePages))
       (calls (run [SearchForString (str "abcd"); SearchForString abcdef;
                    Elapse 500] threePages))
     = [Request.mk More (str "abcd") 4; Request.mk More abcdef 4;
        Request.mk Fresh abcdef 1; Request.mk Fresh abcdef 1].
Proof. vm_compute. repeat split. Qed.

(* ================================================================= *)
(** ** Loading more *)











(* ================================================================= *)
(** ** The error of the input *)

Lemma tick_idle (st : MoviesStore) :
  debounced st = None -> pendingError st = None -> tick st = st.
Proof. intros Hd Hp. unfold tick, errorTick. now rewrite Hp, Hd. Qed.

Lemma elapse_idle (k : nat) (st : MoviesStore) :
  debounced st = None -> pendingError st = None -> elapse k st = st.
Proof.
  intros Hd Hp. induction k as [|k IH]; [reflexivity|].
  cbn [elapse]. now rewrite tick_idle.
Qed.

(** With no text in the debounce, the delayed error shows when its time is
    over, and nothing else happens. *)
Lemma elapse_error (n : nat) (st : MoviesStore) (e : MovieSearchError) :
  debounced st = None ->
  pendingError st = Some (e, S n) ->
  _error (elapse (S n) st) = Some e
  /\ pendingError (elapse (S n) st) = None
  /\ quiet st (elapse (S n) st).
Proof.
  revert st. induction n as [|n IH]; intros st Hd Hp.
  - cbn [elapse]. unfold tick, errorTick. rewrite Hp. cbn. rewrite Hd.
    repeat split.
  - assert (E : tick st = set_pendingError (Some (e, S n)) st).
    { unfold tick, errorTick. rewrite Hp. cbn. now rewrite Hd. }
    change (elapse (S (S n)) st) with (elapse (S n) (tick st)).
    rewrite E.
    destruct (IH (set_pendingError (Some (e, S n)) st) Hd eq_refl)
      as [He [Hp' Hq]].
    split; [exact He|]. split; [exact Hp'|].
    apply (quiet_trans _ (set_pendingError (Some (e, S n)) st));
      [repeat split | exact Hq].
Qed.

Lemma isQueryValid_empty : isQueryValid [] = false.
Proof. reflexivity. Qed.

(** The empty text leaves the debounce. *)
Lemma searchInput_empty (st : MoviesStore) :
  _error (searchInput [] st) = None
  /\ pendingError (searchInput [] st) = None
  /\ _moviesResponses (searchInput [] st) = _moviesResponses st
  /\ debounced (searchInput [] st) = debounced st.
Proof.
  rewrite (searchInput_invalid [] st isQueryValid_empty).
  unfold errorInput. cbn [List.length Nat.eqb orb].
  unfold freshPage, freshSwitch.
  destruct (freshLive (fresh st)); [destruct (latestQuery (fresh st))|];
    repeat split.
Qed.

(** A text that is too short, and not empty, leaves the debounce. *)
Lemma searchInput_short (query : jsString) (st : MoviesStore) :
  isQueryValid query = false -> query <> [] ->
  pendingError (searchInput query st) = Some (BAD_INPUT, 500%nat)
  /\ _error (searchInput query st) = _error st
  /\ _moviesResponses (searchInput query st) = _moviesResponses st
  /\ debounced (searchInput query st) = debounced st
  /\ calls (searchInput query st) = calls (freshPage 1 st).
Proof.
  intros Hv Hne. rewrite (searchInput_invalid query st Hv).
  unfold errorInput. rewrite Hv.
  destruct query as [|c query]; [congruence|]. cbn [List.length Nat.eqb orb].
  unfold freshPage, freshSwitch.
  destruct (freshLive (fresh st)); [destruct (latestQuery (fresh st))|];
    repeat split.
Qed.

(** What holds of C6 on the code: a text that is too short and not empty,
    left alone in the debounce, gives the BadInput error 500 ms after it is
    committed; the window is not touched on the way; and no call is made
    when no valid text was committed before. *)
Lemma short_text_after_debounce (st : MoviesStore) (query : jsString)
    (n : nat) :
  debounced st = Some (query, S n) ->
  isQueryValid query = false -> query <> [] ->
  let st' := elapse (S n) st in
  _moviesResponses st' = _moviesResponses st
  /\ _error (elapse 500 st') = Some BAD_INPUT
  /\ _moviesResponses (elapse 500 st') = _moviesResponses st
  /\ (latestQuery (fresh st) = None -> calls (elapse 500 st') = calls st).
Proof.
  intros Hd Hv Hne st'.
  destruct (elapse_commit n st query Hd) as [st1 [E [Hq Hd1]]].
  fold st' in E.
  destruct (searchInput_short query st1 Hv Hne) as [Hp [_ [Hw [Hd' Hc]]]].
  rewrite <- E in Hp, Hw, Hd', Hc. rewrite Hd1 in Hd'.
  destruct (elapse_error 499 st' BAD_INPUT Hd' Hp) as [He [_ Hq']].
  destruct Hq as [Hf1 [_ [Hc1 [_ [Hw1 _]]]]].
  destruct Hq' as [_ [_ [Hc2 [_ [Hw2 _]]]]].
  repeat split.
  - congruence.
  - exact He.
  - congruence.
  - intro Hnone. rewrite Hc2, Hc.
    rewrite (proj2 (proj2 (proj2 (proj2 (proj2 (proj2
               (freshPage_effect 1 st1))))))).
    rewrite Hf1, Hnone, Hc1. destruct (freshLive (fresh st));
      apply app_nil_r.
Qed.

(** C6 on the code, at a store where "abc" was searched before and page 3
    is shown: when "ab" is committed, page 1 of "abc" is called for again,
    and its answer takes the place of the window.  The BadInput error comes
    500 ms after the commit, as claimed. *)
Theorem short_query_searches_again :
  isQueryValid (str "ab") = false
  /\ List.length (trim (str "ab")) = 2%nat
  /\ currentPages selected3 = [3]
  /\ calls shortAfterValid = calls selected3 ++ [Request.mk Fresh abc 1]
  /\ awaited shortAfterValid 3 = true
  /\ currentPages (serve (pageOf 5) 3 shortAfterValid) = [1]
  /\ _error (elapse 500 shortAfterValid) = Some BAD_INPUT
  /\ message BAD_INPUT = "Please enter at least 3 characters"%string.
Proof. vm_compute. repeat split. Qed.

(** What holds of C7 on the code.  When the empty text is committed, the
    error is cleared at that moment, whatever it was (a BadInput error in
    particular), and no delayed error is left to come; the commit itself
    and the time that passes after it do not write the window. *)
Theorem empty_query_clears_error (st : MoviesStore) (n : nat) :
  debounced st = Some ([], S n) ->
  let st' := elapse (S n) st in
  _error st' = None
  /\ pendingError st' = None
  /\ _moviesResponses st' = _moviesResponses st
  /\ forall k, _error (elapse k st') = None
               /\ _moviesResponses (elapse k st') = _moviesResponses st.
Proof.
  intros Hd st'.
  destruct (elapse_commit n st [] Hd) as [st1 [E [Hq Hd1]]].
  fold st' in E.
  destruct (searchInput_empty st1) as [He [Hp [Hw Hd']]].
  rewrite <- E in He, Hp, Hw, Hd'. rewrite Hd1 in Hd'.
  destruct Hq as [_ [_ [_ [_ [Hw1 _]]]]].
  assert (Hw' : _moviesResponses st' = _moviesResponses st) by congruence.
  repeat split; try assumption;
    now rewrite (elapse_idle k st' Hd' Hp).
Qed.

Lemma empty_query_clears_error_witness :
  _error emptied = Some BAD_INPUT
  /\ debounced emptied = Some ([], 500%nat)
  /\ _error (elapse 500 emptied) = None
  /\ _moviesResponses (elapse 500 emptied) = _moviesResponses emptied.
Proof.
  split; [reflexivity|]. split; [reflexivity|].
  destruct (empty_query_clears_error emptied 499 eq_refl) as [He [_ [Hw _]]].
  split; [exact He | exact Hw].
Defined.

(** C7 on the code, at a store that shows the BadInput error with page 3 of
    "abc" in the window: when the empty text is committed the error is
    cleared at once, as claimed, but page 1 of "abc" is called for again,
    and its answer takes the place of the window. *)
Theorem empty_query_searches_again :
  reachable badInputOnPage3
  /\ _error badInputOnPage3 = Some BAD_INPUT
  /\ currentPages badInputOnPage3 = [3]
  /\ _error emptiedOnPage3 = None
  /\ currentPages emptiedOnPage3 = [3]
  /\ calls emptiedOnPage3 = calls badInputOnPage3 ++ [Request.mk Fresh abc 1]
  /\ awaited emptiedOnPage3 4 = true
  /\ currentPages (serve (pageOf 5) 4 emptiedOnPage3) = [1].
Proof.
  split.
  - exists [SearchForString abc; Elapse 500; Serve (pageOf 5) 1;
            SearchForString (str "ab"); Elapse 1000;
            SelectPage 3; Serve (pageOf 5) 3].
    vm_compute. reflexivity.
  - vm_compute. repeat split.
Qed.

(* ================================================================= *)
(** ** The pages of a window *)

(** C9 on the code.  [byQuery] gives every page of a query the same
    [totalPages].  "abc" is searched and answered; "xyz" is typed and more
    is asked for before its 500 ms are over: the second subscription calls
    for page 2 of "xyz", and the window then holds a page of 5 next to a
    page of 9. *)
Theorem window_mixes_queries :
  (forall query p p' a b,
     byQuery query p = Success a -> byQuery query p' = Success b ->
     MoviesPage.totalPages a = MoviesPage.totalPages b)
  /\ reachable mixed
  /\ calls mixed = [Request.mk Fresh abc 1; Request.mk Fresh abc 1;
                    Request.mk More (str "xyz") 2]
  /\ map MoviesPage.totalPages (_moviesResponses mixed) = [5; 9]
  /\ totalPages mixed = 5.
Proof.
  split; [|split].
  - intros query p p' a b Ha Hb. unfold byQuery in *.
    inversion Ha. inversion Hb. reflexivity.
  - exists mixedTrace. reflexivity.
  - vm_compute. repeat split.
Qed.

(* ================================================================= *)
(** * Further properties of the code *)

(* ================================================================= *)
(** ** [isQueryValid] and [trim] *)

Lemma trimStart_app_ws (pre s : jsString) :
  forallb isWhiteSpace pre = true -> trimStart (pre ++ s) = trimStart s.
Proof.
  induction pre as [|c pre IH]; intro H; [reflexivity|].
  cbn [forallb] in H. apply andb_true_iff in H. destruct H as [Hc Hpre].
  cbn [app trimStart]. rewrite Hc. now apply IH.
Qed.

Lemma trimStart_ws (s : jsString) :
  forallb isWhiteSpace s = true -> trimStart s = [].
Proof.
  intro H. rewrite <- (app_nil_r s). now rewrite trimStart_app_ws.
Qed.

Lemma forallb_rev {A} (f : A -> bool) (l : list A) :
  forallb f (rev l) = forallb f l.
Proof.
  induction l as [|x l IH]; [reflexivity|].
  cbn [rev]. rewrite forallb_app, IH. cbn. rewrite andb_true_r.
  apply andb_comm.
Qed.

Lemma trimEnd_app_ws (s post : jsString) :
  forallb isWhiteSpace post = true -> trimEnd (s ++ post) = trimEnd s.
Proof.
  intro H. unfold trimEnd. rewrite rev_app_distr, trimStart_app_ws;
    [reflexivity | now rewrite forallb_rev].
Qed.

Lemma trimStart_length (s : jsString) :
  (List.length (trimStart s) <= List.length s)%nat.
Proof.
  induction s as [|c s IH]; [apply Nat.le_refl|].
  cbn [trimStart]. destruct (isWhiteSpace c); cbn [List.length]; lia.
Qed.

Lemma trim_length (s : jsString) :
  (List.length (trim s) <= List.length s)%nat.
Proof.
  unfold trim, trimEnd. rewrite length_rev.
  etransitivity; [apply trimStart_length|]. rewrite length_rev.
  apply trimStart_length.
Qed.

Lemma trim_app_ws (pre s post : jsString) :
  forallb isWhiteSpace pre = true -> forallb isWhiteSpace post = true ->
  trim (pre ++ s ++ post) = trim s.
Proof.
  intros Hpre Hpost. unfold trim. rewrite trimStart_app_ws by assumption.
  induction s as [|c s IH].
  - cbn [app]. now rewrite trimStart_ws.
  - cbn [app trimStart]. destruct (isWhiteSpace c); [exact IH|].
    now apply (trimEnd_app_ws (c :: s) post).
Qed.

Lemma trim_ends (c : N) (s : jsString) :
  isWhiteSpace c = false ->
  isWhiteSpace (last (c :: s) c) = false ->
  trim (c :: s) = c :: s.
Proof.
  intros Hc Hl. unfold trim. cbn [trimStart]. rewrite Hc.
  unfold trimEnd.
  assert (Hne : c :: s <> []) by discriminate.
  rewrite (app_removelast_last c Hne) at 1.
  rewrite rev_app_distr. cbn [rev app trimStart]. rewrite Hl.
  change (last (c :: s) c :: rev (removelast (c :: s)))
    with (rev [last (c :: s) c] ++ rev (removelast (c :: s))).
  rewrite <- rev_app_distr, rev_involutive.
  symmetry. now apply app_removelast_last.
Qed.

(** White space before and after a text does not count: the text is valid
    with it exactly when it is valid without it. *)
Theorem isQueryValid_ignores_padding (pre query post : jsString) :
  forallb isWhiteSpace pre = true ->
  forallb isWhiteSpace post = true ->
  isQueryValid (pre ++ query ++ post) = isQueryValid query.
Proof.
  intros Hpre Hpost. unfold isQueryValid. now rewrite trim_app_ws.
Qed.

Lemma isQueryValid_ignores_padding_witness :
  isQueryValid (str "  " ++ str "ab" ++ str " ") = isQueryValid (str "ab").
Proof.
  apply isQueryValid_ignores_padding; reflexivity.
Defined.

(** A valid text has at least three code units; and a text that neither
    starts nor ends with white space is valid exactly when it has three
    code units or more, white space inside it counted. *)
Theorem isQueryValid_by_length :
  (forall query, isQueryValid query = true -> (3 <= List.length query)%nat)
  /\ (forall c query,
        isWhiteSpace c = false ->
        isWhiteSpace (last (c :: query) c) = false ->
        isQueryValid (c :: query) = (3 <=? List.length (c :: query))%nat).
Proof.
  split.
  - intros query H. unfold isQueryValid, MIN_CHARACTERS_FOR_SEARCH in H.
    apply Nat.leb_le in H. pose proof (trim_length query). lia.
  - intros c query Hc Hl. unfold isQueryValid. now rewrite trim_ends.
Qed.

Lemma isQueryValid_by_length_witness :
  (3 <= List.length abc)%nat /\ isQueryValid (str "a b") = true.
Proof.
  destruct isQueryValid_by_length as [H1 H2]. split.
  - apply H1. reflexivity.
  - apply (H2 97%N (str " b")); reflexivity.
Defined.

(* ================================================================= *)
(** ** The error, over time *)

Arguments isQueryValid : simpl never.

Lemma elapse_add (a b : nat) (st : MoviesStore) :
  elapse (a + b) st = elapse b (elapse a st).
Proof.
  revert st. induction a as [|a IH]; intro st; [reflexivity|].
  cbn [Nat.add elapse]. apply IH.
Qed.

Lemma typed_short_text (st : MoviesStore) (query : jsString) :
  isQueryValid query = false -> query <> [] ->
  let typed := searchForString query st in
  pendingError (elapse 500 typed) = Some (BAD_INPUT, 500%nat)
  /\ _error (elapse 1000 typed) = Some BAD_INPUT
  /\ _moviesResponses (elapse 1000 typed) = _moviesResponses st
  /\ (latestQuery (fresh st) = None ->
      freshCalls (elapse 1000 typed) = freshCalls st).
Proof.
  intros Hv Hne typed.
  destruct (searchForString_effect query st) as [Hd [Hf [Hc [Hw _]]]].
  fold typed in Hd, Hf, Hc, Hw.
  destruct (short_text_after_debounce typed query 499 Hd Hv Hne)
    as [_ [He [Hw' Hcalls]]].
  change (elapse 1000 typed) with (elapse (500 + 500) typed).
  rewrite elapse_add. repeat split.
  - destruct (elapse_commit 499 typed query Hd) as [st1 [E _]].
    rewrite E. apply (searchInput_short query st1 Hv Hne).
  - exact He.
  - congruence.
  - intro Hnone. unfold freshCalls at 1. rewrite Hcalls; [exact Hc|].
    now rewrite Hf.
Qed.



(** A text of white space only is not the empty text: its trimmed length
    is 0, yet it gets the BadInput error like any text that is too short. *)
Theorem blank_text_is_bad_input (st : MoviesStore) (query : jsString) :
  query <> [] -> forallb isWhiteSpace query = true ->
  trim query = []
  /\ isQueryValid query = false
  /\ _error (elapse 1000 (searchForString query st)) = Some BAD_INPUT.
Proof.
  intros Hne Hws.
  assert (Ht : trim query = []).
  { rewrite <- (app_nil_r query).
    change (query ++ []) with (query ++ [] ++ []).
    now rewrite (trim_app_ws query [] []). }
  assert (Hv : isQueryValid query = false)
    by (unfold isQueryValid; now rewrite Ht).
  repeat split; try assumption.
  apply (typed_short_text st query Hv Hne).
Qed.

Lemma blank_text_is_bad_input_witness :
  _error (elapse 1000 (searchForString (str "  ") initial)) = Some BAD_INPUT.
Proof.
  apply (blank_text_is_bad_input initial (str "  "));
    [discriminate | reflexivity].
Defined.

Lemma searchInput_valid_error (query : jsString) (st : MoviesStore) :
  isQueryValid query = true ->
  _error (searchInput query st) = None
  /\ pendingError (searchInput query st) = None
  /\ debounced (searchInput query st) = debounced st.
Proof.
  intro Hv. unfold searchInput, errorInput. rewrite Hv, orb_true_r.
  unfold freshQuery, freshPage, freshSwitch.
  destruct st as [e nr w d [live lq lp fi] m p c l].
  destruct live, lq; repeat split.
Qed.

(** A valid text handed to [searchForString] and left alone for 500 ms
    clears the error at that moment, whatever it was (a server error too),
    and no delayed error is left; the error stays cleared as time goes
    on.  This holds also when the first subscription has ended. *)
Theorem valid_text_clears_error (st : MoviesStore) (query : jsString) :
  isQueryValid query = true ->
  let st' := elapse 500 (searchForString query st) in
  _error st' = None
  /\ pendingError st' = None
  /\ forall k, _error (elapse k st') = None.
Proof.
  intros Hv st'.
  destruct (searchForString_effect query st) as [Hd _].
  destruct (elapse_commit 499 _ query Hd) as [st1 [E [_ Hd1]]].
  fold st' in E.
  destruct (searchInput_valid_error query st1 Hv) as [He [Hp Hd']].
  rewrite <- E in He, Hp, Hd'. rewrite Hd1 in Hd'.
  repeat split; try assumption.
  intro k. now rewrite (elapse_idle k st' Hd' Hp).
Qed.

Lemma valid_text_clears_error_witness :
  _error failedFresh = Some SERVER_ERROR
  /\ _error (elapse 500 (searchForString abc failedFresh)) = None.
Proof.
  split; [vm_compute; reflexivity|].
  assert (Hv : isQueryValid abc = true) by (vm_compute; reflexivity).
  destruct (valid_text_clears_error failedFresh abc Hv) as [He _].
  exact He.
Defined.

Lemma respond_timers (id : nat) (outcome : Outcome) (st : MoviesStore) :
  debounced (respond id outcome st) = debounced st
  /\ pendingError (respond id outcome st) = pendingError st.
Proof.
  unfold respond. destruct (nth_error (calls st) id) as [r|]; [|now split].
  destruct (Request.origin r);
    [destruct (freshLive (fresh st) && awaits (freshInner (fresh st)) id)
    |destruct (moreLive (more st) && awaits (moreInner (more st)) id)];
    try destruct outcome; now split.
Qed.



(* ================================================================= *)
(** ** What every run keeps *)

(** A property kept by each method, by each millisecond and by each answer
    is kept by every run. *)
Lemma invariant_step (P : MoviesStore -> Prop) :
  (forall st val, P st -> P (searchForString val st)) ->
  (forall st page, P st -> P (setCurrentPage page st)) ->
  (forall st, P st -> P (loadMore st)) ->
  (forall st, P st -> P (tick st)) ->
  (forall st id outcome, P st -> P (respond id outcome st)) ->
  forall st ev, P st -> P (step st ev).
Proof.
  intros Hs Hp Hl Ht Hr st ev H. destruct ev as [val|page|page| |ms|id o|remote id];
    cbn [step]; auto.
  - unfold selectPage. destruct ((0 <? page) && (page <=? totalPages st)); auto.
  - revert st H. induction ms as [|ms IH]; intros st H; cbn [elapse]; auto.
  - unfold serve. destruct (nth_error (calls st) id); auto.
Qed.

Lemma invariant_run (P : MoviesStore -> Prop) :
  (forall st ev, P st -> P (step st ev)) ->
  forall evs st, P st -> P (run evs st).
Proof.
  intros Hstep evs. unfold run.
  induction evs as [|ev evs IH]; intros st H; cbn [fold_left]; auto.
Qed.

(** Take a store apart, down to the fields of its two subscriptions. *)
Ltac open_store st :=
  let e := fresh "e" in let nr := fresh "nr" in let w := fresh "w" in
  let d := fresh "d" in let p := fresh "p" in let c := fresh "c" in
  let l := fresh "l" in
  let fl := fresh "fl" in let lq := fresh "lq" in let lp := fresh "lp" in
  let fi := fresh "fi" in
  let ml := fresh "ml" in let ls := fresh "ls" in let ms := fresh "ms" in
  let mi := fresh "mi" in
  destruct st as [e nr w d [fl lq lp fi] [ml ls ms mi] p c l].

Lemma filter_snoc_out {A} (f : A -> bool) (l : list A) (x : A) :
  f x = false -> filter f (l ++ [x]) = filter f l.
Proof.
  intro H. rewrite filter_app. cbn. rewrite H. apply app_nil_r.
Qed.

(** The first subscription writes its own state and the calls. *)
Lemma freshQuery_beside (query : jsString) (st : MoviesStore) :
  besideFresh (freshQuery query st) = besideFresh st
  /\ moreCalls (freshQuery query st) = moreCalls st.
Proof.
  unfold freshQuery, freshSwitch, moreCalls. open_store st.
  destruct fl; cbn; split; try reflexivity.
  now apply filter_snoc_out.
Qed.

Lemma freshPage_beside (page : Z) (st : MoviesStore) :
  besideFresh (freshPage page st) = besideFresh st
  /\ moreCalls (freshPage page st) = moreCalls st.
Proof.
  unfold freshPage, freshSwitch, moreCalls. open_store st.
  destruct fl; [destruct lq|]; cbn; split; try reflexivity.
  now apply filter_snoc_out.
Qed.

(** The second subscription writes its own state and the calls. *)
Lemma moreSearch_beside (val : jsString) (st : MoviesStore) :
  besideMore (moreSearch val st) = besideMore st
  /\ freshCalls (moreSearch val st) = freshCalls st.
Proof.
  unfold moreSearch, moreSwitch, freshCalls. open_store st.
  destruct ml; [destruct ms|]; cbn; split; try reflexivity.
  now apply filter_snoc_out.
Qed.

Lemma moreClick_beside (st : MoviesStore) :
  besideMore (moreClick st) = besideMore st
  /\ freshCalls (moreClick st) = freshCalls st.
Proof.
  unfold moreClick, moreSwitch, freshCalls. open_store st.
  destruct ml; [destruct ls|]; cbn; split; try reflexivity.
  now apply filter_snoc_out.
Qed.

(** The error pipeline writes the error and its timer. *)
Lemma errorInput_quiet (query : jsString) (st : MoviesStore) :
  quiet st (errorInput query st)
  /\ debounced (errorInput query st) = debounced st.
Proof.
  unfold errorInput.
  destruct ((List.length query =? 0)%nat || isQueryValid query);
    repeat split.
Qed.

(** An answer leaves the calls and the timers as they are. *)
Lemma respond_calls (id : nat) (outcome : Outcome) (st : MoviesStore) :
  calls (respond id outcome st) = calls st.
Proof.
  unfold respond. destruct (nth_error (calls st) id) as [r|]; [|reflexivity].
  destruct (Request.origin r);
    [destruct (freshLive (fresh st) && awaits (freshInner (fresh st)) id)
    |destruct (moreLive (more st) && awaits (moreInner (more st)) id)];
    try destruct outcome; reflexivity.
Qed.

Lemma searchInput_shown (query : jsString) (st : MoviesStore) :
  shown (searchInput query st) = shown st.
Proof.
  unfold searchInput.
  set (st1 := if isQueryValid query then freshQuery query st else st).
  assert (H1 : shown st1 = shown st).
  { unfold st1. destruct (isQueryValid query); [|reflexivity].
    pose proof (proj1 (freshQuery_beside query st)) as H.
    unfold besideFresh in H. congruence. }
  pose proof (proj1 (freshPage_beside 1 st1)) as H2.
  destruct (errorInput_quiet query (freshPage 1 st1))
    as [[_ [_ [_ [H3 [H4 H5]]]]] _].
  unfold besideFresh in H2. unfold shown in *. congruence.
Qed.

Lemma tick_shown (st : MoviesStore) : shown (tick st) = shown st.
Proof.
  rewrite tick_errorTick.
  assert (H : shown (errorTick st) = shown st).
  { destruct (errorTick_quiet st) as [[_ [_ [_ [H3 [H4 H5]]]]] _].
    unfold shown. congruence. }
  destruct (debounced (errorTick st)) as [[q ms]|]; [|exact H].
  destruct (ms <=? 1)%nat; [|exact H].
  rewrite searchInput_shown. exact H.
Qed.

Lemma elapse_shown (ms : nat) (st : MoviesStore) :
  shown (elapse ms st) = shown st.
Proof.
  revert st. induction ms as [|ms IH]; intro st; cbn [elapse];
    [reflexivity|].
  now rewrite IH, tick_shown.
Qed.

Lemma searchForString_shown (val : jsString) (st : MoviesStore) :
  shown (searchForString val st) = shown st.
Proof.
  unfold searchForString.
  pose proof (proj1 (moreSearch_beside val
                       (set_debounced (Some (val, 500%nat)) st))) as H.
  unfold besideMore in H. cbn [set_debounced] in H.
  change (shown (set_debounced (Some (val, 500%nat)) st)) with (shown st)
    in H.
  congruence.
Qed.

Lemma setCurrentPage_shown (page : Z) (st : MoviesStore) :
  shown (setCurrentPage page st) = shown st.
Proof.
  pose proof (proj1 (freshPage_beside page st)) as H.
  unfold besideFresh in H. unfold setCurrentPage. congruence.
Qed.

Lemma loadMore_shown (st : MoviesStore) : shown (loadMore st) = shown st.
Proof.
  pose proof (proj1 (moreClick_beside st)) as H.
  unfold besideMore in H. unfold loadMore. congruence.
Qed.

(** The window and [noResultsFound] are written by answers of the remote
    client and by nothing else: whatever is typed, selected or asked for,
    and however much time passes, they stay as they are, and nothing is
    logged; a failure leaves them as they are too. *)
Theorem only_answers_write_the_window (st : MoviesStore) (ev : Event) :
  match ev with
  | Respond _ (Success _) => True
  | Serve _ _ => True
  | Respond _ (Failure _) =>
      _moviesResponses (step st ev) = _moviesResponses st
      /\ _noResultsFound (step st ev) = _noResultsFound st
  | _ => shown (step st ev) = shown st
  end.
Proof.
  destruct ev as [val|page|page| |ms|id [md|err]|remote id]; cbn [step].
  - apply searchForString_shown.
  - apply setCurrentPage_shown.
  - unfold selectPage.
    destruct ((0 <? page) && (page <=? totalPages st));
      [apply setCurrentPage_shown | reflexivity].
  - apply loadMore_shown.
  - apply elapse_shown.
  - exact I.
  - unfold respond. destruct (nth_error (calls st) id) as [r|]; [|now split].
    destruct (Request.origin r);
      [destruct (freshLive (fresh st) && awaits (freshInner (fresh st)) id)
      |destruct (moreLive (more st) && awaits (moreInner (more st)) id)];
      now split.
  - exact I.
Qed.

(* ================================================================= *)
(** ** A subscription that has ended *)

Lemma freshQuery_ended (query : jsString) (st : MoviesStore) :
  freshLive (fresh st) = false -> freshQuery query st = st.
Proof. intro H. unfold freshQuery. now rewrite H. Qed.

Lemma freshPage_ended (page : Z) (st : MoviesStore) :
  freshLive (fresh st) = false -> freshPage page st = st.
Proof. intro H. unfold freshPage. now rewrite H. Qed.

Lemma moreSearch_ended (val : jsString) (st : MoviesStore) :
  moreLive (more st) = false -> moreSearch val st = st.
Proof. intro H. unfold moreSearch. now rewrite H. Qed.

Lemma moreClick_ended (st : MoviesStore) :
  moreLive (more st) = false -> moreClick st = st.
Proof. intro H. unfold moreClick. now rewrite H. Qed.

Lemma searchInput_ended (query : jsString) (st : MoviesStore) :
  freshLive (fresh st) = false ->
  searchInput query st = errorInput query st.
Proof.
  intro H. unfold searchInput.
  rewrite (freshQuery_ended query st H).
  destruct (isQueryValid query); now rewrite (freshPage_ended 1 st H).
Qed.

Lemma tick_fresh_ended (st : MoviesStore) :
  freshLive (fresh st) = false ->
  fresh (tick st) = fresh st /\ more (tick st) = more st
  /\ calls (tick st) = calls st.
Proof.
  intro H. rewrite tick_errorTick.
  destruct (errorTick_quiet st) as [[Hf [Hm [Hc _]]] _].
  destruct (debounced (errorTick st)) as [[q ms]|]; [|auto].
  destruct (ms <=? 1)%nat; [|auto].
  rewrite searchInput_ended by (cbn [fresh set_debounced]; congruence).
  destruct (errorInput_quiet q (set_debounced None (errorTick st)))
    as [[Hf' [Hm' [Hc' _]]] _].
  cbn [fresh more calls set_debounced] in Hf', Hm', Hc'.
  repeat split; congruence.
Qed.

Lemma respond_fresh_ended (id : nat) (outcome : Outcome) (st : MoviesStore) :
  freshLive (fresh st) = false -> fresh (respond id outcome st) = fresh st.
Proof.
  intro H. unfold respond.
  destruct (nth_error (calls st) id) as [r|]; [|reflexivity].
  destruct (Request.origin r).
  - now rewrite H.
  - destruct (moreLive (more st) && awaits (moreInner (more st)) id);
      try destruct outcome; reflexivity.
Qed.

Lemma respond_more_ended (id : nat) (outcome : Outcome) (st : MoviesStore) :
  moreLive (more st) = false -> more (respond id outcome st) = more st.
Proof.
  intro H. unfold respond.
  destruct (nth_error (calls st) id) as [r|]; [|reflexivity].
  destruct (Request.origin r).
  - destruct (freshLive (fresh st) && awaits (freshInner (fresh st)) id);
      try destruct outcome; reflexivity.
  - now rewrite H.
Qed.

Lemma respond_ends (id : nat) (error : string) (st : MoviesStore)
    (r : Request.t) :
  nth_error (calls st) id = Some r -> awaited st id = true ->
  match Request.origin r with
  | Fresh => freshLive (fresh (respond id (Failure error) st)) = false
  | More => moreLive (more (respond id (Failure error) st)) = false
  end.
Proof.
  unfold awaited, respond. intros ->.
  destruct (Request.origin r); intros ->; reflexivity.
Qed.

Lemma fresh_ended_run (st : MoviesStore) (evs : list Event) :
  freshLive (fresh st) = false ->
  fresh (run evs st) = fresh st /\ freshCalls (run evs st) = freshCalls st.
Proof.
  intro H.
  apply (invariant_run
           (fun s => fresh s = fresh st /\ freshCalls s = freshCalls st));
    [|now split].
  apply invariant_step.
  - intros s val [Hf Hc].
    destruct (searchForString_effect val s) as [_ [Hf' [Hc' _]]].
    split; congruence.
  - intros s page [Hf Hc]. unfold setCurrentPage.
    rewrite freshPage_ended by congruence. now split.
  - intros s [Hf Hc]. unfold loadMore.
    destruct (moreClick_beside s) as [Hb Hc'].
    unfold besideMore in Hb. split; congruence.
  - intros s [Hf Hc].
    destruct (tick_fresh_ended s) as [Hf' [_ Hc']]; [congruence|].
    unfold freshCalls in *. split; congruence.
  - intros s id outcome [Hf Hc]. split.
    + rewrite respond_fresh_ended; congruence.
    + unfold freshCalls in *. now rewrite respond_calls.
Qed.

(** Once a call of the first subscription has failed, that subscription has
    ended for good: whatever is typed, selected or answered afterwards, and
    however much time passes, it makes no further call. *)
Theorem search_ends_with_first_failure (st : MoviesStore) (id : nat)
    (r : Request.t) (error : string) (evs : list Event) :
  nth_error (calls st) id = Some r -> Request.origin r = Fresh ->
  awaited st id = true ->
  let st' := run evs (respond id (Failure error) st) in
  freshLive (fresh st') = false /\ freshCalls st' = freshCalls st.
Proof.
  intros Hr Ho Ha st'.
  pose proof (respond_ends id error st r Hr Ha) as He. rewrite Ho in He.
  destruct (fresh_ended_run _ evs He) as [Hf Hc].
  fold st' in Hf, Hc. split.
  - now rewrite Hf.
  - rewrite Hc. unfold freshCalls. now rewrite respond_calls.
Qed.

Lemma search_ends_with_first_failure_witness :
  freshCalls (run [SearchForString abcdef; Elapse 500; SelectPage 1]
                  failedFresh)
  = freshCalls searched.
Proof.
  assert (Hr : nth_error (calls searched) 1 = Some (Request.mk Fresh abc 1))
    by (vm_compute; reflexivity).
  assert (Ha : awaited searched 1 = true) by (vm_compute; reflexivity).
  exact (proj2 (search_ends_with_first_failure searched 1 _ "timeout"
                  [SearchForString abcdef; Elapse 500; SelectPage 1]
                  Hr eq_refl Ha)).
Defined.

Lemma searchInput_more (query : jsString) (st : MoviesStore) :
  more (searchInput query st) = more st
  /\ moreCalls (searchInput query st) = moreCalls st
  /\ lives (searchInput query st) = lives st.
Proof.
  unfold searchInput.
  set (st1 := if isQueryValid query then freshQuery query st else st).
  assert (H1 : more st1 = more st /\ moreCalls st1 = moreCalls st
               /\ freshLive (fresh st1) = freshLive (fresh st)).
  { unfold st1. destruct (isQueryValid query); [|auto].
    destruct (freshQuery_beside query st) as [Hb Hc].
    unfold besideFresh in Hb. repeat split; try congruence.
    unfold freshQuery, freshSwitch.
    destruct (freshLive (fresh st)) eqn:E; [reflexivity | exact E]. }
  destruct H1 as [Hm1 [Hc1 Hl1]].
  destruct (freshPage_beside 1 st1) as [Hb Hc2].
  assert (Hl2 : freshLive (fresh (freshPage 1 st1)) = freshLive (fresh st1)).
  { unfold freshPage, freshSwitch.
    destruct (freshLive (fresh st1)) eqn:E; [|exact E].
    destruct (latestQuery (fresh st1)); reflexivity. }
  destruct (errorInput_quiet query (freshPage 1 st1))
    as [[Hf [Hm [Hc _]]] _].
  unfold besideFresh in Hb. unfold moreCalls, lives in *.
  repeat split; congruence.
Qed.

Lemma tick_more (st : MoviesStore) :
  more (tick st) = more st /\ moreCalls (tick st) = moreCalls st
  /\ lives (tick st) = lives st.
Proof.
  rewrite tick_errorTick.
  destruct (errorTick_quiet st) as [[Hf [Hm [Hc _]]] _].
  assert (H : more (errorTick st) = more st
              /\ moreCalls (errorTick st) = moreCalls st
              /\ lives (errorTick st) = lives st)
    by (unfold moreCalls, lives; repeat split; congruence).
  destruct (debounced (errorTick st)) as [[q ms]|]; [|exact H].
  destruct (ms <=? 1)%nat; [|exact H].
  destruct (searchInput_more q (set_debounced None (errorTick st)))
    as [H1 [H2 H3]].
  destruct H as [H4 [H5 H6]].
  repeat split; [rewrite H1 | rewrite H2 | rewrite H3]; assumption.
Qed.

Lemma more_ended_run (st : MoviesStore) (evs : list Event) :
  moreLive (more st) = false ->
  more (run evs st) = more st /\ moreCalls (run evs st) = moreCalls st.
Proof.
  intro H.
  apply (invariant_run
           (fun s => more s = more st /\ moreCalls s = moreCalls st));
    [|now split].
  apply invariant_step.
  - intros s val [Hm Hc]. unfold searchForString.
    rewrite moreSearch_ended by (cbn [more set_debounced]; congruence).
    now split.
  - intros s page [Hm Hc]. unfold setCurrentPage.
    destruct (freshPage_beside page s) as [Hb Hc'].
    unfold besideFresh in Hb. split; congruence.
  - intros s [Hm Hc]. unfold loadMore.
    rewrite moreClick_ended by congruence. now split.
  - intros s [Hm Hc]. destruct (tick_more s) as [Hm' [Hc' _]].
    split; congruence.
  - intros s id outcome [Hm Hc]. split.
    + rewrite respond_more_ended; congruence.
    + unfold moreCalls in *. now rewrite respond_calls.
Qed.

(** Once a call of the second subscription has failed, that subscription has
    ended for good: [loadMore()] and every later input make no further call
    of it. *)
Theorem load_more_ends_with_first_failure (st : MoviesStore) (id : nat)
    (r : Request.t) (error : string) (evs : list Event) :
  nth_error (calls st) id = Some r -> Request.origin r = More ->
  awaited st id = true ->
  let st' := run evs (respond id (Failure error) st) in
  moreLive (more st') = false /\ moreCalls st' = moreCalls st.
Proof.
  intros Hr Ho Ha st'.
  pose proof (respond_ends id error st r Hr Ha) as He. rewrite Ho in He.
  destruct (more_ended_run _ evs He) as [Hm Hc].
  fold st' in Hm, Hc. split.
  - now rewrite Hm.
  - rewrite Hc. unfold moreCalls. now rewrite respond_calls.
Qed.

Lemma load_more_ends_with_first_failure_witness :
  moreCalls (run [LoadMore; SearchForString abcdef; LoadMore] failedMore)
  = moreCalls (loadMore answered).
Proof.
  assert (Hr : nth_error (calls (loadMore answered)) 2
               = Some (Request.mk More abc 2)) by (vm_compute; reflexivity).
  assert (Ha : awaited (loadMore answered) 2 = true)
    by (vm_compute; reflexivity).
  exact (proj2 (load_more_ends_with_first_failure (loadMore answered) 2 _
                  "timeout" [LoadMore; SearchForString abcdef; LoadMore]
                  Hr eq_refl Ha)).
Defined.

Lemma respond_both_ended (id : nat) (outcome : Outcome) (st : MoviesStore) :
  freshLive (fresh st) = false -> moreLive (more st) = false ->
  respond id outcome st = st.
Proof.
  intros Hf Hm. unfold respond.
  destruct (nth_error (calls st) id) as [r|]; [|reflexivity].
  destruct (Request.origin r); [now rewrite Hf | now rewrite Hm].
Qed.

(** When both subscriptions have ended, the store is out of use: no later
    input makes a call, changes the window or [noResultsFound], or logs. *)
Theorem both_ended_nothing_moves (st : MoviesStore) (evs : list Event) :
  freshLive (fresh st) = false -> moreLive (more st) = false ->
  calls (run evs st) = calls st
  /\ _moviesResponses (run evs st) = _moviesResponses st
  /\ _noResultsFound (run evs st) = _noResultsFound st
  /\ logged (run evs st) = logged st.
Proof.
  intros Hf Hm.
  assert (H : fresh (run evs st) = fresh st /\ more (run evs st) = more st
              /\ calls (run evs st) = calls st
              /\ shown (run evs st) = shown st).
  { apply (invariant_run
             (fun s => fresh s = fresh st /\ more s = more st
                       /\ calls s = calls st /\ shown s = shown st));
      [|now repeat split].
    apply invariant_step.
    - intros s val [H1 [H2 [H3 H4]]]. unfold searchForString.
      rewrite moreSearch_ended by (cbn [more set_debounced]; congruence).
      now repeat split.
    - intros s page [H1 [H2 [H3 H4]]]. unfold setCurrentPage.
      rewrite freshPage_ended by congruence. now repeat split.
    - intros s [H1 [H2 [H3 H4]]]. unfold loadMore.
      rewrite moreClick_ended by congruence. now repeat split.
    - intros s [H1 [H2 [H3 H4]]].
      destruct (tick_fresh_ended s) as [H5 [H6 H7]]; [congruence|].
      pose proof (tick_shown s). repeat split; congruence.
    - intros s id outcome [H1 [H2 [H3 H4]]].
      rewrite respond_both_ended by congruence. now repeat split. }
  destruct H as [_ [_ [Hc Hs]]]. unfold shown in Hs.
  repeat split; congruence.
Qed.

Lemma both_ended_nothing_moves_witness :
  calls (run [SearchForString abcdef; Elapse 500; LoadMore; SelectPage 1]
             bothFailed)
  = calls bothFailed.
Proof.
  assert (Hf : freshLive (fresh bothFailed) = false)
    by (vm_compute; reflexivity).
  assert (Hm : moreLive (more bothFailed) = false)
    by (vm_compute; reflexivity).
  exact (proj1 (both_ended_nothing_moves bothFailed
                  [SearchForString abcdef; Elapse 500; LoadMore; SelectPage 1]
                  Hf Hm)).
Defined.

(* ================================================================= *)
(** ** What holds in every store that can be reached *)

Lemma methods_lives (st : MoviesStore) :
  (forall val, lives (searchForString val st) = lives st)
  /\ (forall page, lives (setCurrentPage page st) = lives st)
  /\ lives (loadMore st) = lives st.
Proof.
  unfold searchForString, setCurrentPage, loadMore, moreSearch, moreClick,
    moreSwitch, freshPage, freshSwitch, lives.
  open_store st. repeat split; intros; cbn.
  - destruct ml; [destruct ms|]; reflexivity.
  - destruct fl; [destruct lq|]; reflexivity.
  - destruct ml; [destruct ls|]; reflexivity.
Qed.

Lemma respond_logged (id : nat) (outcome : Outcome) (st : MoviesStore) :
  List.length (logged st) = ended st ->
  List.length (logged (respond id outcome st)) = ended (respond id outcome st).
Proof.
  unfold ended, respond. intro H.
  destruct (nth_error (calls st) id) as [r|]; [|exact H].
  destruct (Request.origin r).
  - destruct (freshLive (fresh st)) eqn:Hf; cbn [andb]; [|now rewrite Hf].
    destruct (awaits (freshInner (fresh st)) id); [|now rewrite Hf].
    destruct outcome; cbn; [exact H|]. rewrite length_app. cbn. lia.
  - destruct (moreLive (more st)) eqn:Hm; cbn [andb]; [|now rewrite Hm].
    destruct (awaits (moreInner (more st)) id); [|now rewrite Hm].
    destruct outcome; cbn; [exact H|]. rewrite length_app. cbn.
    destruct (freshLive (fresh st)); lia.
Qed.

Lemma logged_ended_ext (s s' : MoviesStore) :
  shown s' = shown s -> lives s' = lives s ->
  List.length (logged s) = ended s -> List.length (logged s') = ended s'.
Proof.
  unfold shown, lives, ended. intros Hs Hl H.
  injection Hs as _ _ Hlog. injection Hl as Hf Hm.
  now rewrite Hlog, Hf, Hm.
Qed.

(** In every store that can be reached, one error has been logged for each
    subscription that has ended, and none besides: the store logs at most
    two remote failures in its life. *)
Theorem one_log_entry_per_ended_subscription (st : MoviesStore) :
  reachable st ->
  List.length (logged st) = ended st /\ (List.length (logged st) <= 2)%nat.
Proof.
  intros [evs ->].
  assert (H : List.length (logged (run evs initial)) = ended (run evs initial)).
  { apply (invariant_run (fun s => List.length (logged s) = ended s));
      [|reflexivity].
    apply invariant_step.
    - intros s val H.
      apply (logged_ended_ext s); [apply searchForString_shown | | exact H].
      apply (methods_lives s).
    - intros s page H.
      apply (logged_ended_ext s); [apply setCurrentPage_shown | | exact H].
      apply (methods_lives s).
    - intros s H.
      apply (logged_ended_ext s); [apply loadMore_shown | | exact H].
      apply (methods_lives s).
    - intros s H.
      apply (logged_ended_ext s); [apply tick_shown | | exact H].
      apply (tick_more s).
    - intros s id outcome H. now apply respond_logged. }
  split; [exact H|]. rewrite H. unfold ended.
  destruct (freshLive (fresh (run evs initial)));
    destruct (moreLive (more (run evs initial))); cbn; lia.
Qed.

Lemma one_log_entry_per_ended_subscription_witness :
  List.length (logged bothFailed) = 2%nat.
Proof.
  assert (Hr : reachable bothFailed).
  { exists [SearchForString abc; Elapse 500; Serve (pageOf 5) 1; LoadMore;
            Respond 2 (Failure "timeout"); SelectPage 1;
            Respond 3 (Failure "timeout")].
    vm_compute. reflexivity. }
  destruct (one_log_entry_per_ended_subscription bothFailed Hr) as [H _].
  rewrite H. vm_compute. reflexivity.
Defined.

Lemma freshQueriesValid_ext (s s' : MoviesStore) :
  latestQuery (fresh s') = latestQuery (fresh s) ->
  (forall r, In r (calls s') -> In r (calls s) \/ Request.origin r = More) ->
  freshQueriesValid s -> freshQueriesValid s'.
Proof.
  intros Hq Hc [H1 H2]. split.
  - intros q E. apply H1. congruence.
  - intros r Hin Ho. destruct (Hc r Hin) as [Hold | Hmore];
      [now apply H2 | congruence].
Qed.

Lemma freshQuery_valid (query : jsString) (st : MoviesStore) :
  isQueryValid query = true ->
  freshQueriesValid st -> freshQueriesValid (freshQuery query st).
Proof.
  intros Hv [H1 H2]. unfold freshQuery, freshSwitch.
  destruct (freshLive (fresh st)); [|now split].
  cbn. split.
  - intros q E. now inversion E; subst.
  - intros r Hin Ho. apply in_app_or in Hin.
    destruct Hin as [Hin | [<- | []]]; [now apply H2 | exact Hv].
Qed.

Lemma freshPage_valid (page : Z) (st : MoviesStore) :
  freshQueriesValid st -> freshQueriesValid (freshPage page st).
Proof.
  intros [H1 H2]. unfold freshPage, freshSwitch.
  destruct (freshLive (fresh st)); [|now split].
  destruct (latestQuery (fresh st)) as [q|] eqn:E.
  - split.
    + intros q' E'. apply H1. exact E'.
    + intros r Hin Ho. cbn in Hin. apply in_app_or in Hin.
      destruct Hin as [Hin | [<- | []]];
        [now apply H2 | now apply (H1 q)].
  - split.
    + intros q' E'. apply H1. exact E'.
    + exact H2.
Qed.

Lemma searchInput_queries_valid (query : jsString) (st : MoviesStore) :
  freshQueriesValid st -> freshQueriesValid (searchInput query st).
Proof.
  intro H. unfold searchInput.
  set (st1 := if isQueryValid query then freshQuery query st else st).
  assert (H1 : freshQueriesValid st1).
  { unfold st1. destruct (isQueryValid query) eqn:Hv;
      [now apply freshQuery_valid | exact H]. }
  pose proof (freshPage_valid 1 st1 H1) as H2.
  destruct (errorInput_quiet query (freshPage 1 st1)) as [[Hf [_ [Hc _]]] _].
  apply (freshQueriesValid_ext (freshPage 1 st1)); [congruence | | exact H2].
  intros r Hin. left. congruence.
Qed.

Lemma respond_latestQuery (id : nat) (outcome : Outcome) (st : MoviesStore) :
  latestQuery (fresh (respond id outcome st)) = latestQuery (fresh st).
Proof.
  unfold respond. destruct (nth_error (calls st) id) as [r|]; [|reflexivity].
  destruct (Request.origin r);
    [destruct (freshLive (fresh st) && awaits (freshInner (fresh st)) id)
    |destruct (moreLive (more st) && awaits (moreInner (more st)) id)];
    try destruct outcome; reflexivity.
Qed.

Lemma moreClick_calls (st : MoviesStore) (r : Request.t) :
  In r (calls (moreClick st)) -> In r (calls st) \/ Request.origin r = More.
Proof.
  unfold moreClick, moreSwitch.
  destruct (moreLive (more st)); [|now left].
  destruct (latestSearch (more st)); cbn; [|now left].
  intro H. apply in_app_or in H. destruct H as [H | [<- | []]]; auto.
Qed.

(** In every store that can be reached, each query the first subscription
    has called the remote client with is valid (trimmed length at least 3),
    and so is the query it keeps for the next page selected. *)
Theorem search_calls_carry_valid_queries (st : MoviesStore) :
  reachable st ->
  (forall r, In r (calls st) -> Request.origin r = Fresh ->
             (3 <= List.length (trim (Request.query r)))%nat)
  /\ (forall q, latestQuery (fresh st) = Some q ->
                (3 <= List.length (trim q))%nat).
Proof.
  intros [evs ->].
  assert (H : freshQueriesValid (run evs initial)).
  { apply (invariant_run freshQueriesValid).
    - apply invariant_step.
      + intros s val H.
        apply (freshQueriesValid_ext s); [| | exact H].
        * now rewrite (proj1 (proj2 (searchForString_effect val s))).
        * intros r Hin. rewrite searchForString_calls in Hin.
          apply in_app_or in Hin. destruct Hin as [Hin | Hin]; [now left|].
          destruct (moreLive (more s) && moreSeen (more s));
            [destruct Hin as [<- | []]; now right | destruct Hin].
      + intros s page H. now apply freshPage_valid.
      + intros s H. apply (freshQueriesValid_ext s); [| | exact H].
        * unfold loadMore. destruct (moreClick_beside s) as [Hb _].
          unfold besideMore in Hb. congruence.
        * apply moreClick_calls.
      + intros s H. rewrite tick_errorTick.
        destruct (errorTick_quiet s) as [[Hf [_ [Hc _]]] _].
        assert (He : freshQueriesValid (errorTick s)).
        { apply (freshQueriesValid_ext s); [congruence | | exact H].
          intros r Hin. left. congruence. }
        destruct (debounced (errorTick s)) as [[q ms]|]; [|exact He].
        destruct (ms <=? 1)%nat; [|exact He].
        now apply searchInput_queries_valid.
      + intros s id outcome H.
        apply (freshQueriesValid_ext s); [| | exact H].
        * apply respond_latestQuery.
        * intros r Hin. left. now rewrite respond_calls in Hin.
    - split; [discriminate | intros r []]. }
  destruct H as [H1 H2]. split.
  - intros r Hin Ho. apply Nat.leb_le. now apply (H2 r).
  - intros q E. apply Nat.leb_le. now apply (H1 q).
Qed.

Lemma search_calls_carry_valid_queries_witness :
  Forall (fun r => Request.origin r = Fresh ->
                   (3 <= List.length (trim (Request.query r)))%nat)
         (calls shortAfterValid).
Proof.
  assert (Hr : reachable shortAfterValid).
  { exists [SearchForString abc; Elapse 500; Serve (pageOf 5) 1;
            SelectPage 3; Serve (pageOf 5) 2;
            SearchForString (str "ab"); Elapse 500].
    vm_compute. reflexivity. }
  apply Forall_forall.
  exact (proj1 (search_calls_carry_valid_queries shortAfterValid Hr)).
Defined.

(* ----------------------------------------------------------------- *)
(** *** The two timers *)

Lemma errorTick_timers (st : MoviesStore) :
  timersInOrder st ->
  forall e b, pendingError (errorTick st) = Some (e, b) ->
    e = BAD_INPUT /\ (1 <= b <= 499)%nat
    /\ forall q d, debounced st = Some (q, d) -> (S b <= d)%nat.
Proof.
  intros [H1 [_ H3]] e b. unfold errorTick.
  destruct (pendingError st) as [[e0 b0]|] eqn:Hp;
    [|intro E; cbn in E; congruence].
  destruct (H1 e0 b0 eq_refl) as [He Hb].
  destruct (b0 <=? 1)%nat eqn:Hle; cbn; intro E; [discriminate|].
  apply Nat.leb_gt in Hle. inversion E; subst.
  repeat split; try lia.
  intros q d Hd. pose proof (H3 _ _ q d eq_refl Hd). lia.
Qed.

Lemma searchInput_timers (query : jsString) (st : MoviesStore) :
  debounced (searchInput query st) = debounced st
  /\ (pendingError (searchInput query st) = None
      \/ pendingError (searchInput query st) = Some (BAD_INPUT, 500%nat)).
Proof.
  unfold searchInput.
  set (st1 := if isQueryValid query then freshQuery query st else st).
  assert (H1 : debounced st1 = debounced st).
  { unfold st1. destruct (isQueryValid query); [|reflexivity].
    pose proof (proj1 (freshQuery_beside query st)) as H.
    unfold besideFresh in H. congruence. }
  pose proof (proj1 (freshPage_beside 1 st1)) as H2.
  unfold besideFresh in H2.
  destruct (errorInput_quiet query (freshPage 1 st1)) as [_ H3].
  split; [congruence|]. unfold errorInput.
  destruct ((List.length query =? 0)%nat || isQueryValid query); auto.
Qed.

Lemma tick_timers (st : MoviesStore) :
  timersInOrder st -> timersInOrder (tick st).
Proof.
  intro H. pose proof (errorTick_timers st H) as He.
  destruct (errorTick_quiet st) as [_ Hd].
  destruct H as [_ [H2 _]].
  rewrite tick_errorTick.
  destruct (debounced (errorTick st)) as [[q d]|] eqn:Hdb.
  - assert (Hst : debounced st = Some (q, d)) by congruence.
    destruct (H2 q d Hst) as [Hd1 Hd2].
    destruct (d <=? 1)%nat eqn:Hle.
    + destruct (searchInput_timers q (set_debounced None (errorTick st)))
        as [Hsd Hsp].
      cbn [debounced set_debounced] in Hsd.
      split; [|split].
      * intros e b Hpe.
        destruct Hsp as [Hsp | Hsp]; rewrite Hsp in Hpe; [discriminate|].
        inversion Hpe; subst. split; [reflexivity | lia].
      * intros q0 d0 Hdb0. rewrite Hsd in Hdb0. discriminate.
      * intros e b q0 d0 _ Hdb0. rewrite Hsd in Hdb0. discriminate.
    + apply Nat.leb_gt in Hle. split; [|split].
      * intros e b Hpe. destruct (He e b Hpe) as [He1 [Hb _]].
        split; [exact He1 | lia].
      * intros q0 d0 Hdb0. cbn in Hdb0. inversion Hdb0; subst. lia.
      * intros e b q0 d0 Hpe Hdb0. cbn in Hdb0. inversion Hdb0; subst.
        destruct (He e b Hpe) as [_ [_ Hord]].
        pose proof (Hord _ _ Hst). lia.
  - split; [|split].
    + intros e b Hpe. destruct (He e b Hpe) as [He1 [Hb _]].
      split; [exact He1 | lia].
    + intros q0 d0 Hdb0. congruence.
    + intros e b q0 d0 _ Hdb0. congruence.
Qed.

Lemma timersInOrder_ext (s s' : MoviesStore) :
  debounced s' = debounced s -> pendingError s' = pendingError s ->
  timersInOrder s -> timersInOrder s'.
Proof.
  unfold timersInOrder. intros Hd Hp H. now rewrite Hd, Hp.
Qed.

(** In every store that can be reached, a delayed BadInput error is due no
    later than the text that waits in the debounce.  So when a text is
    committed, the error delayed before it has been shown: the
    [switchMap] of the error pipeline never drops a delayed error unseen. *)
Theorem delayed_error_is_due_first (st : MoviesStore) :
  reachable st ->
  timersInOrder st
  /\ (forall q, debounced st = Some (q, 1%nat) ->
                pendingError (errorTick st) = None).
Proof.
  intros [evs ->].
  assert (H : timersInOrder (run evs initial)).
  { apply (invariant_run timersInOrder).
    - apply invariant_step.
      + intros s val [H1 [H2 H3]].
        destruct (searchForString_effect val s) as [Hd [_ [_ [_ [_ Hp]]]]].
        split; [|split].
        * intros e b Hpe. apply (H1 e b). congruence.
        * intros q d Hdb. rewrite Hd in Hdb. inversion Hdb; subst. lia.
        * intros e b q d Hpe Hdb. rewrite Hd in Hdb. inversion Hdb; subst.
          rewrite Hp in Hpe. apply (H1 e b Hpe).
      + intros s page H. unfold setCurrentPage.
        pose proof (proj1 (freshPage_beside page s)) as Hb.
        unfold besideFresh in Hb.
        apply (timersInOrder_ext s); [congruence | congruence | exact H].
      + intros s H. unfold loadMore.
        pose proof (proj1 (moreClick_beside s)) as Hb.
        unfold besideMore in Hb.
        apply (timersInOrder_ext s); [congruence | congruence | exact H].
      + intros s H. now apply tick_timers.
      + intros s id outcome H.
        destruct (respond_timers id outcome s) as [Hd Hp].
        now apply (timersInOrder_ext s).
    - repeat split; intros; discriminate. }
  split; [exact H|].
  intros q Hq. destruct H as [_ [_ H3]]. unfold errorTick.
  destruct (pendingError (run evs initial)) as [[e b]|] eqn:Hp;
    [|exact Hp].
  pose proof (H3 e b q 1%nat eq_refl Hq) as Hle.
  apply Nat.leb_le in Hle. now rewrite Hle.
Qed.

Lemma delayed_error_is_due_first_witness : timersInOrder emptied.
Proof.
  assert (Hr : reachable emptied).
  { exists [SearchForString (str "ab"); Elapse 1000; SearchForString []].
    vm_compute. reflexivity. }
  exact (proj1 (delayed_error_is_due_first emptied Hr)).
Defined.

(* ================================================================= *)
(** ** Selecting a page, and the commit of a text that is not valid *)

Lemma freshPage_live (page : Z) (st : MoviesStore) (q : jsString) :
  freshLive (fresh st) = true -> latestQuery (fresh st) = Some q ->
  calls (freshPage page st) = calls st ++ [Request.mk Fresh q page]
  /\ fresh (freshPage page st) =
       {| freshLive := true; latestQuery := Some q; latestPage := page;
          freshInner := Some (List.length (calls st)) |}.
Proof.
  intros Hl Hq. unfold freshPage, freshSwitch. rewrite Hl, Hq. now split.
Qed.

Lemma freshPage_awaited (page : Z) (st : MoviesStore) (q : jsString) :
  freshLive (fresh st) = true -> latestQuery (fresh st) = Some q ->
  awaited (freshPage page st) (List.length (calls st)) = true.
Proof.
  intros Hl Hq. destruct (freshPage_live page st q Hl Hq) as [Hc Hf].
  unfold awaited. rewrite Hc, nth_error_snoc, Hf.
  cbn [Request.origin freshLive freshInner awaits andb]. apply Nat.eqb_refl.
Qed.

(** A page of the strip is selected while the first subscription is live
    and a valid text was committed before: [selectPage] makes one call, for
    that text and that page, and the page that answers it takes the place
    of the whole window, whatever was loaded before; [totalPages] and the
    movies are then those of that page. *)
Theorem selectPage_replaces_the_window
    (st : MoviesStore) (q : jsString) (n : Z) :
  freshLive (fresh st) = true -> latestQuery (fresh st) = Some q ->
  1 <= n <= totalPages st ->
  let st' := selectPage n st in
  let id := List.length (calls st) in
  calls st' = calls st ++ [Request.mk Fresh q n]
  /\ awaited st' id = true
  /\ forall moviesData,
       let st'' := respond id (Success moviesData) st' in
       _moviesResponses st'' = [moviesData]
       /\ currentPages st'' = [MoviesPage.page moviesData]
       /\ totalPages st'' = MoviesPage.totalPages moviesData
       /\ movies st'' = MoviesPage.movies moviesData.
Proof.
  intros Hl Hq Hn st' id.
  assert (E : st' = freshPage n st).
  { unfold st', selectPage, setCurrentPage.
    destruct (0 <? n) eqn:E1; destruct (n <=? totalPages st) eqn:E2;
      try reflexivity;
      try apply Z.ltb_ge in E1; try apply Z.leb_gt in E2; lia. }
  destruct (freshPage_live n st q Hl Hq) as [Hc _].
  pose proof (freshPage_awaited n st q Hl Hq) as Ha.
  rewrite <- E in Hc, Ha. split; [exact Hc|]. split; [exact Ha|].
  intros moviesData st''.
  assert (Hr : nth_error (calls st') id = Some (Request.mk Fresh q n))
    by (rewrite Hc; apply nth_error_snoc).
  destruct (respond_fresh_success id _ moviesData st' Hr eq_refl Ha)
    as [Hw _].
  fold st'' in Hw. unfold currentPages, totalPages, movies.
  rewrite Hw. cbn. rewrite app_nil_r. now repeat split.
Qed.

Lemma selectPage_replaces_the_window_witness :
  currentPages (respond 4 (Success (MoviesPage.mk 2 100 []))
                  (selectPage 2 threePages)) = [2].
Proof.
  assert (Hl : freshLive (fresh threePages) = true)
    by (vm_compute; reflexivity).
  assert (Hq : latestQuery (fresh threePages) = Some abc)
    by (vm_compute; reflexivity).
  assert (Hn : 1 <= 2 <= totalPages threePages) by (vm_compute; split; discriminate).
  destruct (selectPage_replaces_the_window threePages abc 2 Hl Hq Hn)
    as [_ [_ H]].
  destruct (H (MoviesPage.mk 2 100 [])) as [_ [Hp _]].
  assert (Hid : List.length (calls threePages) = 4%nat)
    by (vm_compute; reflexivity).
  rewrite Hid in Hp. exact Hp.
Defined.

(** A text that is not valid (too short, or empty) still resets the page:
    when it is committed while the first subscription is live and a valid
    text [q0] was committed before, page 1 of [q0] is called for again, and
    that call is awaited. *)
Theorem invalid_text_searches_last_query_again
    (st : MoviesStore) (q0 query : jsString) :
  freshLive (fresh st) = true -> latestQuery (fresh st) = Some q0 ->
  isQueryValid query = false ->
  let typed := searchForString query st in
  let st' := elapse 500 typed in
  calls st' = calls typed ++ [Request.mk Fresh q0 1]
  /\ awaited st' (List.length (calls typed)) = true.
Proof.
  intros Hl Hq Hv typed st'.
  destruct (searchForString_effect query st) as [Hd [Hf _]].
  fold typed in Hd, Hf.
  destruct (elapse_commit 499 typed query Hd) as [st1 [E [Hq1 _]]].
  fold st' in E. destruct Hq1 as [Hf1 [_ [Hc1 _]]].
  assert (Hl1 : freshLive (fresh st1) = true) by congruence.
  assert (Hq1 : latestQuery (fresh st1) = Some q0) by congruence.
  rewrite (searchInput_invalid query st1 Hv) in E.
  destruct (freshPage_live 1 st1 q0 Hl1 Hq1) as [Hc Hfp].
  destruct (errorInput_quiet query (freshPage 1 st1))
    as [[Hf' [Hm' [Hc' _]]] _].
  rewrite <- E in Hf', Hm', Hc'.
  assert (Hcalls : calls st' = calls typed ++ [Request.mk Fresh q0 1])
    by congruence.
  split; [exact Hcalls|].
  unfold awaited. rewrite Hcalls, nth_error_snoc, Hf', Hfp, Hc1.
  cbn [Request.origin freshLive freshInner awaits andb]. apply Nat.eqb_refl.
Qed.

Lemma invalid_text_searches_last_query_again_witness :
  calls (elapse 500 (searchForString [] selected3))
  = calls (searchForString [] selected3) ++ [Request.mk Fresh abc 1].
Proof.
  assert (Hl : freshLive (fresh selected3) = true)
    by (vm_compute; reflexivity).
  assert (Hq : latestQuery (fresh selected3) = Some abc)
    by (vm_compute; reflexivity).
  exact (proj1 (invalid_text_searches_last_query_again
                  selected3 abc [] Hl Hq isQueryValid_empty)).
Defined.

(* ================================================================= *)
(** ** Typing *)

Lemma typeBurst_step (st : MoviesStore) (val : jsString) (d : nat) :
  (d < 500)%nat ->
  let st' := elapse d (searchForString val st) in
  debounced st' = Some (val, (500 - d)%nat)
  /\ fresh st' = fresh st
  /\ freshCalls st' = freshCalls st
  /\ shown st' = shown st.
Proof.
  intros Hd st'.
  destruct (searchForString_effect val st) as [Hdb [Hf [Hc _]]].
  destruct (elapse_wait d (searchForString val st) val 500 Hdb Hd)
    as [Hdb' [Hf' [_ [Hc' _]]]].
  fold st' in Hdb', Hf', Hc'.
  repeat split; try congruence.
  - unfold freshCalls in *. congruence.
  - unfold st'. now rewrite elapse_shown, searchForString_shown.
Qed.

(** However many texts are typed, as long as each is followed by the next
    within less than 500 ms: the first subscription makes no call, the
    window stays as it is, and only the text typed last waits in the
    debounce. *)
Theorem typing_without_a_pause_searches_nothing
    (keys : list (jsString * nat)) (st : MoviesStore) :
  Forall (fun key => (snd key < 500)%nat) keys ->
  fresh (typeBurst keys st) = fresh st
  /\ freshCalls (typeBurst keys st) = freshCalls st
  /\ _moviesResponses (typeBurst keys st) = _moviesResponses st
  /\ (forall val d, last keys (val, d) = (val, d) -> keys <> [] ->
        debounced (typeBurst keys st) = Some (val, (500 - d)%nat)).
Proof.
  intro H.
  assert (G : fresh (typeBurst keys st) = fresh st
              /\ freshCalls (typeBurst keys st) = freshCalls st
              /\ shown (typeBurst keys st) = shown st
              /\ (forall val d, last keys (val, d) = (val, d) -> keys <> [] ->
                    debounced (typeBurst keys st)
                    = Some (val, (500 - d)%nat))).
  { revert st. induction H as [|[v g] keys Hg Hrest IH]; intro st.
    - repeat split. intros val d _ Hne. congruence.
    - cbn [snd] in Hg.
      destruct (typeBurst_step st v g Hg) as [Hdb [Hf [Hc Hs]]].
      destruct (IH (elapse g (searchForString v st))) as [IH1 [IH2 [IH3 IH4]]].
      change (typeBurst ((v, g) :: keys) st)
        with (typeBurst keys (elapse g (searchForString v st))).
      repeat split; try congruence.
      intros val d Hlast _. destruct keys as [|k keys'].
      + cbn in Hlast. inversion Hlast; subst. exact Hdb.
      + apply IH4; [exact Hlast | discriminate]. }
  destruct G as [G1 [G2 [G3 G4]]]. unfold shown in G3.
  repeat split; try assumption. congruence.
Qed.

Lemma typing_without_a_pause_searches_nothing_witness :
  freshCalls (typeBurst [(str "a", 100%nat); (str "ab", 499%nat);
                         (abc, 200%nat)] initial) = [].
Proof.
  apply (typing_without_a_pause_searches_nothing
           [(str "a", 100%nat); (str "ab", 499%nat); (abc, 200%nat)] initial).
  repeat constructor.
Defined.

Lemma moreSeen_run (st : MoviesStore) (evs : list Event) :
  moreSeen (more st) = true -> moreSeen (more (run evs st)) = true.
Proof.
  apply (invariant_run (fun s => moreSeen (more s) = true)).
  apply invariant_step.
  - intros s val H. unfold searchForString, moreSearch, moreSwitch.
    cbn [more set_debounced].
    destruct (moreLive (more s)); [|exact H]. now rewrite H.
  - intros s page H. unfold setCurrentPage.
    pose proof (proj1 (freshPage_beside page s)) as Hb.
    unfold besideFresh in Hb. congruence.
  - intros s H. unfold loadMore, moreClick, moreSwitch.
    destruct (moreLive (more s)); [|exact H].
    destruct (latestSearch (more s)); reflexivity.
  - intros s H. destruct (tick_more s) as [Hm _]. congruence.
  - intros s id outcome H. unfold respond.
    destruct (nth_error (calls s) id) as [r|]; [|exact H].
    destruct (Request.origin r);
      [destruct (freshLive (fresh s) && awaits (freshInner (fresh s)) id)
      |destruct (moreLive (more s) && awaits (moreInner (more s)) id)];
      try destruct outcome; exact H.
Qed.

(** Once [loadMore()] has been called, every text handed to
    [searchForString] afterwards, whatever has been typed, selected or
    answered in between, reaches the second subscription as it is typed,
    with no debounce and no check, as long as that subscription is live: a
    call for that text and the page after the window is made at once (the
    pages of the window being in the safe range). *)
Theorem typing_after_loadMore_loads_more
    (st : MoviesStore) (evs : list Event) (val : jsString) :
  moreLive (more st) = true ->
  let st' := run evs (loadMore st) in
  moreLive (more st') = true ->
  safePages st' = true ->
  calls (searchForString val st')
  = calls st' ++ [Request.mk More val
                    (match lastOfCurrentPages st' with
                     | Some last => last + 1
                     | None => 2
                     end)].
Proof.
  intros Hl st' Hl' _. rewrite searchForString_calls.
  assert (Hs : moreSeen (more (loadMore st)) = true).
  { unfold loadMore, moreClick, moreSwitch. rewrite Hl.
    destruct (latestSearch (more st)); reflexivity. }
  pose proof (moreSeen_run (loadMore st) evs Hs) as Hs'. fold st' in Hs'.
  now rewrite Hl', Hs'.
Qed.

Lemma typing_after_loadMore_loads_more_witness :
  calls (searchForString (str "a")
           (run [Serve (pageOf 5) 2; Elapse 700] (loadMore answered)))
  = calls (loadMore answered) ++ [Request.mk More (str "a") 3].
Proof.
  assert (Hl : moreLive (more answered) = true) by (vm_compute; reflexivity).
  assert (Hl' : moreLive (more (run [Serve (pageOf 5) 2; Elapse 700]
                                   (loadMore answered))) = true)
    by (vm_compute; reflexivity).
  assert (Hp : safePages (run [Serve (pageOf 5) 2; Elapse 700]
                             (loadMore answered)) = true)
    by (vm_compute; reflexivity).
  rewrite (typing_after_loadMore_loads_more answered
             [Serve (pageOf 5) 2; Elapse 700] (str "a") Hl Hl' Hp).
  vm_compute. reflexivity.
Defined.

(* ================================================================= *)
(** ** The strip and the controls of the pagination view *)

Lemma fold_setAdd_length (l s : list number) :
  (List.length (fold_left setAdd l s) <= List.length s + List.length l)%nat.
Proof.
  revert s. induction l as [|x l IH]; intro s; cbn [fold_left List.length].
  - lia.
  - etransitivity; [apply IH|]. unfold setAdd.
    destruct (existsb (sameValueZero x) s); [lia|].
    rewrite length_app. cbn. lia.
Qed.

Lemma filterPages_length (total : Z) (l : list number) :
  (List.length (filterPages total l) <= List.length l)%nat.
Proof.
  induction l as [|[page|] l IH]; cbn [filterPages List.length]; [lia| |lia].
  destruct ((0 <? page) && (page <=? total)); cbn [List.length]; lia.
Qed.

Lemma candidates_length (st : MoviesStore) :
  List.length (candidates st) = (List.length (currentPages st) + 8)%nat.
Proof.
  unfold candidates. rewrite !length_app, length_map. cbn [List.length]. lia.
Qed.

(** The strip has at most eight pages more than the window, whatever
    [totalPages] is; it offers every page of the window that lies in
    [1..totalPages], and, when there is a page at all, the first two pages
    and the last one; the page before the last is offered too when
    [totalPages] is in the safe range, where [totalPages - 1] is exact. *)
Theorem pagesToPickFrom_bounded_with_ends (st : MoviesStore) :
  (List.length (pagesToPickFrom st) <= List.length (currentPages st) + 8)%nat
  /\ (forall page, In page (currentPages st) ->
                   1 <= page <= totalPages st ->
                   In page (pagesToPickFrom st))
  /\ (1 <= totalPages st ->
      In 1 (pagesToPickFrom st) /\ In (totalPages st) (pagesToPickFrom st))
  /\ (2 <= totalPages st -> In 2 (pagesToPickFrom st))
  /\ (safePages st = true -> 2 <= totalPages st ->
      In (totalPages st - 1) (pagesToPickFrom st)).
Proof.
  split; [|split; [|split; [|split]]].
  - unfold pagesToPickFrom, newSet.
    etransitivity; [apply filterPages_length|].
    etransitivity; [apply fold_setAdd_length|].
    rewrite candidates_length. cbn [List.length]. lia.
  - intros page Hin Hr. apply pagesToPickFrom_In. split; [|exact Hr].
    unfold candidates. cbn [app]. do 4 right.
    apply in_or_app. left. now apply in_map.
  - intro Ht. split; apply pagesToPickFrom_In; (split; [|lia]);
      unfold candidates; cbn [app In].
    + now left.
    + do 4 right. apply in_or_app. right. cbn [In]. tauto.
  - intro Ht. apply pagesToPickFrom_In. split; [|lia].
    unfold candidates. cbn [app In]. right. now left.
  - intros _ Ht. apply pagesToPickFrom_In. split; [|lia].
    unfold candidates. cbn [app In].
    do 4 right. apply in_or_app. right. cbn [In]. tauto.
Qed.

Lemma pagesToPickFrom_bounded_with_ends_witness :
  In 1 (pagesToPickFrom page50) /\ In 100 (pagesToPickFrom page50)
  /\ In 99 (pagesToPickFrom page50).
Proof.
  assert (Ht : 1 <= totalPages page50) by (vm_compute; discriminate).
  assert (Ht2 : 2 <= totalPages page50) by (vm_compute; discriminate).
  assert (Hs : safePages page50 = true) by (vm_compute; reflexivity).
  destruct (pagesToPickFrom_bounded_with_ends page50)
    as [_ [_ [H1 [_ H99]]]].
  destruct (H1 Ht) as [Ha Hb]. split; [exact Ha|]. split; [exact Hb|].
  exact (H99 Hs Ht2).
Defined.

Lemma includes_In (a : list Z) (x : Z) : includes a x = true <-> In x a.
Proof.
  unfold includes. rewrite existsb_exists. split.
  - intros [y [Hy E]]. apply Z.eqb_eq in E. now subst.
  - intro H. exists x. split; [exact H | apply Z.eqb_refl].
Qed.

Lemma includes_seqZ (a x : Z) (n : nat) :
  includes (seqZ a n) x = (a <=? x) && (x <? a + Z.of_nat n).
Proof.
  destruct (includes (seqZ a n) x) eqn:E.
  - apply includes_In, seqZ_In in E. symmetry. apply andb_true_iff.
    split; [apply Z.leb_le | apply Z.ltb_lt]; lia.
  - symmetry. apply not_true_is_false. intro H.
    apply andb_true_iff in H. destruct H as [H1 H2].
    apply Z.leb_le in H1. apply Z.ltb_lt in H2.
    assert (Hin : In x (seqZ a n)) by (apply seqZ_In; lia).
    apply includes_In in Hin. congruence.
Qed.

(** For a window of consecutive pages [a, ..., a+n] inside
    [1..totalPages], all in the safe range (where the page before and the
    page after the window are exact): the view is drawn; "Previous" is
    disabled exactly when the window starts at page 1 and "Next" exactly
    when it ends at the last page; the handler of a disabled control leaves the store as it is,
    and the handler of an enabled one hands the page before the window, or
    after it, to [setCurrentPage]. *)
Theorem pagination_controls (st : MoviesStore) (a : Z) (n : nat) :
  safePages st = true ->
  currentPages st = seqZ a (S n) ->
  1 <= a -> a + Z.of_nat n <= totalPages st ->
  exists props,
    Pagination st = Some props
    /\ previousDisabled props = (a =? 1)
    /\ nextDisabled props = (a + Z.of_nat n =? totalPages st)
    /\ onPrevious st = (if a =? 1 then st else setCurrentPage (a - 1) st)
    /\ onNext st = (if a + Z.of_nat n =? totalPages st then st
                    else setCurrentPage (a + Z.of_nat n + 1) st).
Proof.
  intros _ Hw Ha Hb. unfold Pagination. rewrite Hw, seqZ_length.
  cbn [Nat.eqb]. eexists. split; [reflexivity|].
  cbn [previousDisabled nextDisabled]. rewrite !includes_seqZ.
  split; [|split; [|split]].
  - destruct (a =? 1) eqn:E.
    + apply Z.eqb_eq in E. apply andb_true_iff.
      split; [apply Z.leb_le | apply Z.ltb_lt]; lia.
    + apply Z.eqb_neq in E. apply andb_false_iff. left.
      apply Z.leb_gt. lia.
  - destruct (a + Z.of_nat n =? totalPages st) eqn:E.
    + apply Z.eqb_eq in E. apply andb_true_iff.
      split; [apply Z.leb_le | apply Z.ltb_lt]; lia.
    + apply Z.eqb_neq in E. apply andb_false_iff. right.
      apply Z.ltb_ge. lia.
  - unfold onPrevious, firstOfCurrentPages. rewrite Hw.
    cbn [index seqZ Z.ltb Z.compare Z.to_nat nth_error]. unfold selectPage.
    destruct (a =? 1) eqn:E.
    + apply Z.eqb_eq in E. subst. reflexivity.
    + apply Z.eqb_neq in E.
      assert (H1 : (0 <? a - 1) = true) by (apply Z.ltb_lt; lia).
      assert (H2 : (a - 1 <=? totalPages st) = true)
        by (apply Z.leb_le; lia).
      now rewrite H1, H2.
  - unfold onNext, lastOfCurrentPages. rewrite Hw, index_last.
    unfold selectPage.
    destruct (a + Z.of_nat n =? totalPages st) eqn:E.
    + apply Z.eqb_eq in E.
      assert (H2 : (a + Z.of_nat n + 1 <=? totalPages st) = false)
        by (apply Z.leb_gt; lia).
      now rewrite H2, andb_false_r.
    + apply Z.eqb_neq in E.
      assert (H1 : (0 <? a + Z.of_nat n + 1) = true)
        by (apply Z.ltb_lt; lia).
      assert (H2 : (a + Z.of_nat n + 1 <=? totalPages st) = true)
        by (apply Z.leb_le; lia).
      now rewrite H1, H2.
Qed.

Lemma pagination_controls_witness :
  onPrevious threePages = threePages
  /\ onNext threePages = setCurrentPage 4 threePages.
Proof.
  assert (Hw : currentPages threePages = seqZ 1 3)
    by (vm_compute; reflexivity).
  assert (Ht : 1 + Z.of_nat 2 <= totalPages threePages)
    by (vm_compute; discriminate).
  assert (Hs : safePages threePages = true) by (vm_compute; reflexivity).
  destruct (pagination_controls threePages 1 2 Hs Hw (Z.le_refl 1) Ht)
    as [props [_ [_ [_ [Hp Hn]]]]].
  rewrite Z.eqb_refl in Hp. split; [exact Hp|].
  assert (E : (1 + Z.of_nat 2 =? totalPages threePages) = false)
    by (vm_compute; reflexivity).
  rewrite E in Hn. exact Hn.
Defined.

Lemma index_app_last {A} (pre rest : list A) :
  index (pre ++ rest) (Z.of_nat (List.length pre) - 1)
  = index pre (Z.of_nat (List.length pre) - 1).
Proof.
  unfold index. destruct (Z.of_nat (List.length pre) - 1 <? 0) eqn:E;
    [reflexivity|].
  apply Z.ltb_ge in E. apply nth_error_app1. lia.
Qed.

Lemma index_snoc_last {A} (pre : list A) (y : A) :
  index (pre ++ [y]) (Z.of_nat (List.length (pre ++ [y])) - 1) = Some y.
Proof.
  unfold index. rewrite length_app. cbn [List.length].
  destruct (Z.of_nat (List.length pre + 1) - 1 <? 0) eqn:E;
    [apply Z.ltb_lt in E; lia|].
  replace (Z.to_nat (Z.of_nat (List.length pre + 1) - 1))
    with (List.length pre) by lia.
  apply nth_error_snoc.
Qed.

Lemma mapFrom_previous (l pre : list Z) :
  mapFrom (fun page i => (page, index (pre ++ l) (i - 1)))
          (Z.of_nat (List.length pre)) l
  = combine l (index pre (Z.of_nat (List.length pre) - 1) :: map Some l).
Proof.
  revert pre. induction l as [|y l IH]; intro pre; [reflexivity|].
  cbn [mapFrom map combine]. rewrite index_app_last. f_equal.
  replace (pre ++ y :: l) with ((pre ++ [y]) ++ l)
    by (rewrite <- app_assoc; reflexivity).
  replace (Z.of_nat (List.length pre) + 1)
    with (Z.of_nat (List.length (pre ++ [y])))
    by (rewrite length_app; cbn [List.length]; lia).
  rewrite IH. now rewrite index_snoc_last.
Qed.

Lemma sorted_neighbours (p : Z) (l : list Z) :
  StronglySorted Z.lt (p :: l) ->
  Forall (fun item : Z * option Z =>
            match snd item with
            | Some previous => previous < fst item
            | None => True
            end)
         (combine l (Some p :: map Some l)).
Proof.
  revert p. induction l as [|y l IH]; intros p H; [constructor|].
  cbn [map combine]. inversion H as [|? ? Hs Hall]; subst.
  constructor.
  - cbn. inversion Hall; subst. assumption.
  - now apply IH.
Qed.

(** Each item of the strip is drawn with the item before it in the strip,
    the first one with none; for a window of consecutive pages inside
    [1..totalPages], where the strip ascends, the item before is always a
    smaller page. *)
Theorem strip_items_know_the_item_before
    (st : MoviesStore) (props : PaginationProps) :
  Pagination st = Some props ->
  pageItems props
  = combine (pagesToPickFrom st) (None :: map Some (pagesToPickFrom st))
  /\ (forall a n,
        currentPages st = seqZ a (S n) ->
        1 <= a -> a + Z.of_nat n <= totalPages st ->
        Forall (fun item : Z * option Z =>
                  match snd item with
                  | Some previous => previous < fst item
                  | None => True
                  end)
               (pageItems props)).
Proof.
  unfold Pagination. destruct (List.length (currentPages st) =? 0)%nat;
    [discriminate|].
  intro E. inversion E; subst. clear E. cbn [pageItems].
  assert (Hitems :
            mapi (fun page i => (page, index (pagesToPickFrom st) (i - 1)))
                 (pagesToPickFrom st)
            = combine (pagesToPickFrom st)
                      (None :: map Some (pagesToPickFrom st))).
  { apply (mapFrom_previous (pagesToPickFrom st) []). }
  split; [exact Hitems|].
  intros a n Hw Ha Hb. rewrite Hitems.
  pose proof (pagesToPickFrom_consecutive st a n Hw Ha Hb) as Hs.
  destruct (pagesToPickFrom st) as [|p l]; [constructor|].
  cbn [map combine]. constructor; [exact I|].
  now apply sorted_neighbours.
Qed.

Lemma strip_items_know_the_item_before_witness :
  exists props,
    Pagination page50 = Some props
    /\ pageItems props
       = [(1, None); (2, Some 1); (48, Some 2); (49, Some 48); (50, Some 49);
          (51, Some 50); (52, Some 51); (99, Some 52); (100, Some 99)].
Proof.
  eexists. split; [reflexivity|].
  rewrite (proj1 (strip_items_know_the_item_before page50 _ eq_refl)).
  vm_compute. reflexivity.
Defined.

(** A page that answers an awaited call of the second subscription goes to
    the end of the window with its number and its movies, whatever its
    number is; [totalPages] stays that of the first page of the window,
    whatever total the new page reports, and is that of the new page only
    when the window was empty. *)
Theorem loaded_page_goes_last (st : MoviesStore) (id : nat) (r : Request.t)
    (moviesData : MoviesPage.t) :
  nth_error (calls st) id = Some r -> Request.origin r = More ->
  awaited st id = true ->
  let st' := respond id (Success moviesData) st in
  currentPages st' = currentPages st ++ [MoviesPage.page moviesData]
  /\ movies st' = movies st ++ MoviesPage.movies moviesData
  /\ totalPages st' = match _moviesResponses st with
                      | [] => MoviesPage.totalPages moviesData
                      | first :: _ => MoviesPage.totalPages first
                      end.
Proof.
  intros Hr Ho Ha st'.
  destruct (respond_more_success id r moviesData st Hr Ho Ha) as [Hw _].
  fold st' in Hw. unfold currentPages, movies, totalPages. rewrite Hw.
  rewrite map_app, flat_map_app. cbn [map flat_map]. rewrite app_nil_r.
  repeat split. destruct (_moviesResponses st); reflexivity.
Qed.

Lemma loaded_page_goes_last_witness :
  totalPages (respond 2 (Success (MoviesPage.mk 2 9 [])) (loadMore answered))
  = 5.
Proof.
  assert (Hr : nth_error (calls (loadMore answered)) 2
               = Some (Request.mk More abc 2)) by (vm_compute; reflexivity).
  assert (Ha : awaited (loadMore answered) 2 = true)
    by (vm_compute; reflexivity).
  destruct (loaded_page_goes_last (loadMore answered) 2 _
              (MoviesPage.mk 2 9 []) Hr eq_refl Ha) as [_ [_ Ht]].
  rewrite Ht. vm_compute. reflexivity.
Defined.
